(** * govanityurls: route resolution and handler construction

    A shallow embedding of [handler.go] (and of the error values of the
    errors file) together with the properties of [PathConfigSet.find],
    of the [sort.Interface] instance of [PathConfigSet], of
    [NewVanityHandler] and of [ServeHTTP].

    Conventions.
    - A Go [string] is a sequence of bytes: Rocq's [string] (a list of
      8-bit [ascii]) with [String.compare], which compares byte by byte.
    - A slice index ([int]) is a [nat]; a slice never holds more than
      2^63 - 1 elements, so no index computation wraps.
    - [int64] (the cache age) is a [Z]; the code only compares it with 0
      and prints it.
    - An out-of-range index or slice bound is a run-time panic in Go:
      the operations that can panic return a [result]. *)

From Stdlib Require Import String Ascii List Arith Lia ZArith Bool.
From Stdlib Require Import Permutation DecimalString.
From Equations Require Import Equations.
Import ListNotations.
Local Open Scope string_scope.

(** ** Run-time panics *)

Inductive panic : Type :=
| IndexOutOfRange
| SliceBoundsOutOfRange.

Inductive result (A : Type) : Type :=
| Ok (a : A)
| Panic (p : panic).
Arguments Ok {A} a.
Arguments Panic {A} p.

Definition bind {A B} (m : result A) (k : A -> result B) : result B :=
  match m with
  | Ok a => k a
  | Panic p => Panic p
  end.

Notation "x <- m ;; k" := (bind m (fun x => k))
  (at level 61, m at next level, right associativity).

(** ** The [strings] package *)

Module strings.

(** [len(s) >= len(prefix) && s[:len(prefix)] == prefix] *)
Definition HasPrefix (s prefix : string) : bool :=
  (String.length prefix <=? String.length s)%nat
  && (substring 0 (String.length prefix) s =? prefix).

(** [len(s) >= len(suffix) && s[len(s)-len(suffix):] == suffix] *)
Definition HasSuffix (s suffix : string) : bool :=
  (String.length suffix <=? String.length s)%nat
  && (substring (String.length s - String.length suffix)
                (String.length suffix) s =? suffix).

(** [if HasPrefix(s, prefix) { return s[len(prefix):] }; return s] *)
Definition TrimPrefix (s prefix : string) : string :=
  if HasPrefix s prefix
  then substring (String.length prefix)
                 (String.length s - String.length prefix) s
  else s.

(** [if HasSuffix(s, suffix) { return s[:len(s)-len(suffix)] }; return s] *)
Definition TrimSuffix (s suffix : string) : string :=
  if HasSuffix s suffix
  then substring 0 (String.length s - String.length suffix) s
  else s.

End strings.

(** [s[n:]]: panics when [n > len(s)]. *)
Definition slice_from (s : string) (n : nat) : result string :=
  if (n <=? String.length s)%nat
  then Ok (substring n (String.length s - n) s)
  else Panic SliceBoundsOutOfRange.

(** [a >= b] on strings. *)
Definition string_geb (a b : string) : bool := (b <=? a)%string.

(** ** Types of handler.go *)

Record PathConfig : Type := {
  Path : string;
  Repo : string;
  Display : string;
  VCS : string
}.

Definition PathConfigSet : Type := list PathConfig.

Record VanityHandler : Type := {
  host : string;
  paths : PathConfigSet;
  cachectrl : string
}.

Record VanityPath : Type := {
  vp_Repo : string;
  vp_Display : string;
  vp_VCS : string
}.

(** [Paths] is a Go map: the list gives its bindings in the order in
    which [range] happens to visit them (any order is possible; the
    keys of a map are pairwise distinct).  [CacheAge] is a pointer:
    [None] when the key is absent. *)
Record VanityConfig : Type := {
  cfg_Host : string;
  cfg_CacheAge : option Z;
  cfg_Paths : list (string * VanityPath)
}.

(** ** Error values *)

Inductive error : Type :=
| ErrInvalidConfig
| ErrCacheMaxAgeNegative
| ErrHTTPHostMissing
| ErrUnableToRender
| InvalidVCSError (path repo : string).

Definition NewInvalidVCSError (path repo : string) : error :=
  InvalidVCSError path repo.

Definition Error (e : error) : string :=
  match e with
  | ErrInvalidConfig => "invalid config"
  | ErrCacheMaxAgeNegative => "cache-max-age must be positive"
  | ErrHTTPHostMissing => "host is required"
  | ErrUnableToRender => "error rendering HTTP response"
  | InvalidVCSError path repo =>
      "configuration for " ++ path ++ ": cannot infer VCS from " ++ repo
  end.

(** ** Slices *)

(** [pset[i]]: panics when [i] is out of range. *)
Definition index {A} (l : list A) (i : nat) : result A :=
  match nth_error l i with
  | Some a => Ok a
  | None => Panic IndexOutOfRange
  end.

(** [l[i] = a] on an index already known to be in range. *)
Fixpoint update {A} (l : list A) (i : nat) (a : A) : list A :=
  match l, i with
  | [], _ => []
  | _ :: t, 0 => a :: t
  | h :: t, S i' => h :: update t i' a
  end.

(** ** [sort.Search]

    [i, j := 0, n; for i < j { h := int(uint(i+j) >> 1);
       if !f(h) { i = h + 1 } else { j = h } }; return i] *)

Equations? Search_loop (f : nat -> result bool) (i j : nat) : result nat
  by wf (j - i) lt :=
  Search_loop f i j with lt_dec i j => {
    | left _ with f ((i + j) / 2) => {
        | Panic p := Panic p;
        | Ok false := Search_loop f ((i + j) / 2 + 1) j;
        | Ok true := Search_loop f i ((i + j) / 2) };
    | right _ := Ok i }.
Proof.
  all: change (fst (Nat.divmod (i + j) 1 0 1)) with ((i + j) / 2);
       pose proof (Nat.div_mod_eq (i + j) 2);
       pose proof (Nat.mod_upper_bound (i + j) 2); lia.
Qed.

Definition Search (n : nat) (f : nat -> result bool) : result nat :=
  Search_loop f 0 n.

(** ** [PathConfigSet]: the [sort.Interface] methods and [find] *)

Definition Len (pset : PathConfigSet) : nat := List.length pset.

Definition Less (pset : PathConfigSet) (i j : nat) : result bool :=
  a <- index pset i ;;
  b <- index pset j ;;
  Ok (Path a <? Path b)%string.

Definition Swap (pset : PathConfigSet) (i j : nat) : result PathConfigSet :=
  a <- index pset i ;;
  b <- index pset j ;;
  Ok (update (update pset i b) j a).

(** The state of the slow-path loop of [find]: the named result
    [subpath], [lenShortestSubpath] and [bestMatchConfig] (a pointer
    [&pset[i]], kept as the index [i]; [None] is [nil]). *)
Record scan_state : Type := {
  subpath : string;
  lenShortestSubpath : nat;
  bestMatchConfig : option nat
}.

(** One iteration of [for i := 0; i < max; i++] with [ps := pset[i]]. *)
Definition scan_step (path : string) (i : nat) (ps : PathConfig)
           (st : scan_state) : scan_state :=
  if (String.length path <=? String.length (Path ps))%nat
  then st (* continue *)
  else
    let sSubpath := strings.TrimPrefix path (Path ps) in
    if (String.length sSubpath <? lenShortestSubpath st)%nat
    then {| subpath := sSubpath;
            lenShortestSubpath := String.length sSubpath;
            bestMatchConfig := Some i |}
    else st.

(** The loop from index [i], with [n] iterations left ([max = i + n]). *)
Fixpoint scan (pset : PathConfigSet) (path : string) (i n : nat)
         (st : scan_state) : result scan_state :=
  match n with
  | 0 => Ok st
  | S n' =>
      ps <- index pset i ;;
      scan pset path (S i) n' (scan_step path i ps st)
  end.

(** [find] returns a pointer into the table and the subpath.  The
    pointer [&pset[i]] is kept as the index [i]; [None] is [nil]. *)
Definition find (pset : PathConfigSet) (path : string)
  : result (option nat * string) :=
  i <- Search (Len pset)
         (fun i => e <- index pset i ;; Ok (string_geb (Path e) path)) ;;
  exact <- (if (i <? Len pset)%nat
            then e <- index pset i ;; Ok (Path e =? path)
            else Ok false) ;;
  if exact then Ok (Some i, "")
  else
    child <- (if (0 <? i)%nat
              then e <- index pset (i - 1) ;;
                   Ok (strings.HasPrefix path (Path e ++ "/"))
              else Ok false) ;;
    if child
    then e <- index pset (i - 1) ;;
         sub <- slice_from path (String.length (Path e) + 1) ;;
         Ok (Some (i - 1), sub)
    else
      st <- scan pset path 0 i
              {| subpath := "";
                 lenShortestSubpath := String.length path;
                 bestMatchConfig := None |} ;;
      Ok (bestMatchConfig st, subpath st).

(** The entry a returned pointer designates. *)
Definition deref (pset : PathConfigSet) (pc : option nat) : option PathConfig :=
  match pc with
  | Some i => nth_error pset i
  | None => None
  end.

(** ** [sort.Sort]

    [sort.Sort] belongs to Go's standard library and reaches the slice
    only through [Len], [Less] and [Swap].  It is modelled by the
    library's [insertionSort(data, 0, n)] (the routine the library runs
    on short slices):

    [for i := a + 1; i < b; i++ {
       for j := i; j > a && data.Less(j, j-1); j-- { data.Swap(j, j-1) } }]

    [sorted_permutation_unique] below shows that with pairwise distinct
    paths every sorting algorithm produces the same table. *)

(** The inner loop, entered with index [j]. *)
Fixpoint sift (pset : PathConfigSet) (j : nat) : result PathConfigSet :=
  match j with
  | 0 => Ok pset
  | S j' =>
      lt <- Less pset j j' ;;
      if lt
      then pset' <- Swap pset j j' ;; sift pset' j'
      else Ok pset
  end.

(** The outer loop at index [i], with [n] iterations left. *)
Fixpoint insertionSort_loop (pset : PathConfigSet) (i n : nat)
  : result PathConfigSet :=
  match n with
  | 0 => Ok pset
  | S n' => pset' <- sift pset i ;; insertionSort_loop pset' (S i) n'
  end.

Definition sort_Sort (pset : PathConfigSet) : result PathConfigSet :=
  insertionSort_loop pset 1 (Len pset - 1).

(** ** [NewVanityHandler] *)

(** [fmt.Sprintf("%d", n)] *)
Definition fmt_d (n : Z) : string := NilZero.string_of_int (Z.to_int n).

(** [fmt.Sprintf("%v %v/tree/master{/dir} %v/blob/master{/dir}/{file}#L{line}", r, r, r)] *)
Definition github_display (r : string) : string :=
  r ++ " " ++ r ++ "/tree/master{/dir} " ++ r ++ "/blob/master{/dir}/{file}#L{line}".

(** [fmt.Sprintf("%v %v/src/default{/dir} %v/src/default{/dir}/{file}#{file}-{line}", r, r, r)] *)
Definition bitbucket_display (r : string) : string :=
  r ++ " " ++ r ++ "/src/default{/dir} " ++ r
    ++ "/src/default{/dir}/{file}#{file}-{line}".

(** [e.VCS != "bzr" && e.VCS != "git" && e.VCS != "hg" && e.VCS != "svn"] *)
Definition unknown_vcs (v : string) : bool :=
  negb (v =? "bzr") && negb (v =? "git") && negb (v =? "hg") && negb (v =? "svn").

(** The body of [for path, e := range parsed.Paths]: the entry to
    append, or the error the function returns with. *)
Definition path_entry (path : string) (e : VanityPath) : error + PathConfig :=
  let pc := {| Path := strings.TrimSuffix path "/";
               Repo := vp_Repo e;
               Display := vp_Display e;
               VCS := vp_VCS e |} in
  let pc :=
    if negb (vp_Display e =? "") then pc
    else if strings.HasPrefix (vp_Repo e) "https://github.com/"
    then {| Path := Path pc; Repo := Repo pc;
            Display := github_display (vp_Repo e); VCS := VCS pc |}
    else if strings.HasPrefix (vp_Repo e) "https://bitbucket.org"
    then {| Path := Path pc; Repo := Repo pc;
            Display := bitbucket_display (vp_Repo e); VCS := VCS pc |}
    else pc in
  if negb (vp_VCS e =? "")
  then if unknown_vcs (vp_VCS e)
       then inl (NewInvalidVCSError path (vp_Repo e))
       else inr pc
  else if strings.HasPrefix (vp_Repo e) "https://github.com/"
  then inr {| Path := Path pc; Repo := Repo pc;
              Display := Display pc; VCS := "git" |}
  else inl (NewInvalidVCSError path (vp_Repo e)).

(** The [range] loop: [acc] is [handler.paths] so far. *)
Fixpoint range_Paths (bindings : list (string * VanityPath))
         (acc : PathConfigSet) : error + PathConfigSet :=
  match bindings with
  | [] => inr acc
  | (path, e) :: rest =>
      match path_entry path e with
      | inl err => inl err
      | inr pc => range_Paths rest (acc ++ [pc])%list
      end
  end.

Section Handler.

(** [yaml.Unmarshal(config, &parsed)] is a library call: [None] when
    it reports an error, the parsed document otherwise. *)
Variable yaml_Unmarshal : string -> option VanityConfig.

(** The result pair (handler pointer, error); [None] is [nil]. *)
Definition NewVanityHandler (config : string)
  : result (option VanityHandler * option error) :=
  match yaml_Unmarshal config with
  | None => Ok (None, Some ErrInvalidConfig)
  | Some parsed =>
      let cacheAge := 86400%Z in
      match (match cfg_CacheAge parsed with
             | Some a => if (a <? 0)%Z then inl ErrCacheMaxAgeNegative else inr a
             | None => inr cacheAge
             end) with
      | inl err => Ok (None, Some err)
      | inr cacheAge =>
          let cc := "public, max-age=" ++ fmt_d cacheAge in
          match range_Paths (cfg_Paths parsed) [] with
          | inl err => Ok (None, Some err)
          | inr ps =>
              sorted <- sort_Sort ps ;;
              Ok (Some {| host := cfg_Host parsed;
                          paths := sorted;
                          cachectrl := cc |}, None)
          end
      end
  end.

End Handler.

(** ** Ordering predicates on tables *)

(** Ascending by [Path] under [String.compare] (equal neighbours allowed). *)
Fixpoint ascending (pset : PathConfigSet) : bool :=
  match pset with
  | a :: (b :: _) as t => (Path a <=? Path b)%string && ascending t
  | _ => true
  end.

(** Strictly ascending by [Path]: sorted, and no path occurs twice. *)
Fixpoint strictly_ascending (pset : PathConfigSet) : bool :=
  match pset with
  | a :: (b :: _) as t => (Path a <? Path b)%string && strictly_ascending t
  | _ => true
  end.

(** No two entries carry the same [Path]. *)
Fixpoint distinct_paths (pset : PathConfigSet) : bool :=
  match pset with
  | [] => true
  | a :: t => negb (existsb (fun b => Path b =? Path a) t) && distinct_paths t
  end.

(** No entry has the empty [Path]. *)
Definition nonempty_paths (pset : PathConfigSet) : bool :=
  forallb (fun e => negb (Path e =? "")) pset.

(** ** The naive resolution of the specification

    Written from the specification's words, for comparison with [find]:
    an unbounded scan over all entries that selects the exact match if
    present and otherwise the longest configured path that is a strict
    prefix of the query; no match when there is no such entry. *)

Definition strict_prefix (p s : string) : bool :=
  String.prefix p s && (String.length p <? String.length s)%nat.

Definition naive_exact (pset : PathConfigSet) (path : string) : option PathConfig :=
  List.find (fun e => Path e =? path) pset.

Fixpoint naive_longest (pset : PathConfigSet) (path : string)
         (best : option PathConfig) : option PathConfig :=
  match pset with
  | [] => best
  | e :: t =>
      naive_longest t path
        (if strict_prefix (Path e) path
            && match best with
               | None => true
               | Some b => (String.length (Path b) <? String.length (Path e))%nat
               end
         then Some e else best)
  end.

Definition naive_Resolve (pset : PathConfigSet) (path : string) : option PathConfig :=
  match naive_exact pset path with
  | Some e => Some e
  | None => naive_longest pset path None
  end.

(** ** Auxiliary notions for [find] *)

(** The predicate [find] hands to [sort.Search]. *)
Definition search_pred (pset : PathConfigSet) (path : string)
  : nat -> result bool :=
  fun i => e <- index pset i ;; Ok (string_geb (Path e) path).

(** Its value at an index in range. *)
Definition geb_at (pset : PathConfigSet) (path : string) (k : nat) : bool :=
  match nth_error pset k with
  | Some e => string_geb (Path e) path
  | None => false
  end.

(** The initial state of the slow-path loop. *)
Definition scan_init (path : string) : scan_state :=
  {| subpath := ""; lenShortestSubpath := String.length path;
     bestMatchConfig := None |}.

(** What the slow-path loop has established once the indices below [k]
    are scanned: either nothing was selected, or the selected entry is a
    non-empty proper prefix of [path] and [subpath] is the rest; and no
    scanned non-empty proper prefix leaves a shorter rest. *)
Definition scan_inv (pset : PathConfigSet) (path : string) (k : nat)
           (st : scan_state) : Prop :=
  ((bestMatchConfig st = None /\ subpath st = ""
    /\ lenShortestSubpath st = String.length path)
   \/ (exists m e, bestMatchConfig st = Some m /\ m < k
                   /\ nth_error pset m = Some e
                   /\ path = Path e ++ subpath st
                   /\ Path e <> "" /\ subpath st <> ""
                   /\ lenShortestSubpath st = String.length (subpath st)))
  /\ (forall m e r, m < k -> nth_error pset m = Some e ->
                    path = Path e ++ r -> Path e <> "" -> r <> "" ->
                    lenShortestSubpath st <= String.length r).

(** ** Auxiliary notions for [sort.Sort] *)

(** [a] does not come after [b]: the negation of [Less] the other way. *)
Definition le_path (a b : PathConfig) : Prop := (Path a <=? Path b) = true.

(** Every element is related to all the later ones. *)
Fixpoint all_le (pset : PathConfigSet) : Prop :=
  match pset with
  | [] => True
  | a :: t => Forall (le_path a) t /\ all_le t
  end.

(** ** Notions for the validation done by [NewVanityHandler] *)

Definition github_prefix : string := "https://github.com/".

(** The version-control kinds the specification admits. *)
Definition known_vcs (v : string) : Prop :=
  v = "bzr" \/ v = "git" \/ v = "hg" \/ v = "svn".

(** An entry states a version-control kind outside the admitted ones. *)
Definition states_unknown_vcs (e : VanityPath) : Prop :=
  vp_VCS e <> "" /\ ~ known_vcs (vp_VCS e).

(** An entry states no kind, and none can be inferred from its repo. *)
Definition vcs_uninferable (e : VanityPath) : Prop :=
  vp_VCS e = "" /\ ~ (exists r, vp_Repo e = github_prefix ++ r).

(** The configurations the specification calls invalid. *)
Definition rejected (yaml_Unmarshal : string -> option VanityConfig)
           (config : string) : Prop :=
  yaml_Unmarshal config = None
  \/ exists parsed,
       yaml_Unmarshal config = Some parsed
       /\ ((exists a, cfg_CacheAge parsed = Some a /\ (a < 0)%Z)
           \/ exists k e, In (k, e) (cfg_Paths parsed)
                          /\ (states_unknown_vcs e \/ vcs_uninferable e)).

(** [p] is what is left of the configured key [k] once one trailing
    slash, if there is one, is removed. *)
Definition normalized (k p : string) : Prop :=
  k = p ++ "/" \/ (p = k /\ forall q, k <> q ++ "/").

(** The cache age in force: the configured one, or 24 hours. *)
Definition effective_age (parsed : VanityConfig) : Z :=
  match cfg_CacheAge parsed with
  | Some a => a
  | None => 86400%Z
  end.

(** ** Concrete tables and configurations *)

(** An entry with path [p] and the other fields of [e]. *)
Definition with_path (p : string) (e : PathConfig) : PathConfig :=
  {| Path := p; Repo := Repo e; Display := Display e; VCS := VCS e |}.

Definition example_repo : string := "https://github.com/example/repo".

(** The entry [NewVanityHandler] builds for a github repo with neither
    display nor kind given, with path [p]. *)
Definition route (p : string) : PathConfig :=
  {| Path := p; Repo := example_repo;
     Display := github_display example_repo; VCS := "git" |}.

Definition binding (k : string) : string * VanityPath :=
  (k, {| vp_Repo := example_repo; vp_Display := ""; vp_VCS := "" |}).

Definition example_config (keys : list string) (age : option Z) : VanityConfig :=
  {| cfg_Host := "example.com"; cfg_CacheAge := age;
     cfg_Paths := map binding keys |}.

(** A document that unmarshals to [c]. *)
Definition parses_to (c : VanityConfig) : string -> option VanityConfig :=
  fun _ => Some c.

Definition example_handler (ps : list string) (age : string) : VanityHandler :=
  {| host := "example.com"; paths := map route ps;
     cachectrl := "public, max-age=" ++ age |}.

(** ** Serving: [ServeHTTP], [index], [vanity], [Host], [DefaultHost] *)

(** What the handler reads of a request: [r.URL.Path] and [r.Host]. *)
Record Request : Type := {
  r_URL_Path : string;
  r_Host : string
}.

(** The data of the vanity template ([VanityTemplate]; its fields
    [Import], [SubPath], [Repo], [Display], [VCS]). *)
Record VanityTemplate : Type := {
  t_Import : string;
  t_SubPath : string;
  t_Repo : string;
  t_Display : string;
  t_VCS : string
}.

(** The data of the index template (the struct with [Host] and
    [Handlers]). *)
Record IndexData : Type := {
  i_Host : string;
  i_Handlers : list string
}.

(** What is written to the [http.ResponseWriter] besides the headers:
    the output of a template, [http.Error(w, msg, code)], or
    [http.NotFound(w, r)]. *)
Inductive reply : Type :=
| Written (body : string)
| HttpError (msg : string) (code : nat)
| HttpNotFound.

Definition StatusInternalServerError : nat := 500.

Definition DefaultHost (r : Request) : string := r_Host r.

(** [host := h.host; if host == "" { host = DefaultHost(r) }; return host] *)
Definition Host (h : VanityHandler) (r : Request) : string :=
  if host h =? "" then DefaultHost r else host h.

(** [if err := tmpl.Execute(w, data); err != nil {
       http.Error(w, ErrUnableToRender.Error(), http.StatusInternalServerError) }],
    given what [Execute] did: its output, or [None] for an error. *)
Definition render (out : option string) : reply :=
  match out with
  | Some body => Written body
  | None => HttpError (Error ErrUnableToRender) StatusInternalServerError
  end.

Section Serving.

(** Parsing and executing the two templates is the work of
    [text/template] on files that are embedded at build time: each is a
    function from the data to the text written, [None] when [Execute]
    reports an error. *)
Variable execute_index : IndexData -> option string.
Variable execute_vanity : VanityTemplate -> option string.

(** The method [index]: [handlers[i] = host + h.Path] for every entry
    of the table, in its order. *)
Definition index_page (h : VanityHandler) (r : Request) : reply :=
  let host := Host h r in
  let handlers := map (fun e => host ++ Path e) (paths h) in
  render (execute_index {| i_Host := host; i_Handlers := handlers |}).

(** The method [vanity], applied to the entry [pc] points to. *)
Definition vanity (h : VanityHandler) (pc : PathConfig) (subpath : string)
           (r : Request) : reply :=
  render (execute_vanity {| t_Import := Host h r ++ Path pc;
                            t_SubPath := subpath;
                            t_Repo := Repo pc;
                            t_Display := Display pc;
                            t_VCS := VCS pc |}).

(** [ServeHTTP]: the value given to the [Cache-Control] header, and the
    reply. *)
Definition ServeHTTP (h : VanityHandler) (r : Request)
  : result (string * reply) :=
  let current := r_URL_Path r in
  found <- find (paths h) current ;;
  let cc := cachectrl h in
  match fst found with
  | None =>
      if current =? "/" then Ok (cc, index_page h r)
      else Ok (cc, HttpNotFound)
  | Some i =>
      pc <- index (paths h) i ;;
      Ok (cc, vanity h pc (snd found) r)
  end.

End Serving.

(** ** Further notions for the properties of serving and construction *)

(** [p] begins the request path [path]. *)
Definition is_prefix (p path : string) : Prop := exists rest, path = p ++ rest.

(** A list of strings in ascending byte-wise order. *)
Fixpoint strings_ascending (l : list string) : bool :=
  match l with
  | a :: (b :: _) as t => (a <=? b)%string && strings_ascending t
  | _ => true
  end.

(** No string occurs twice in the list. *)
Fixpoint distinct_strings (l : list string) : bool :=
  match l with
  | [] => true
  | a :: t => negb (existsb (String.eqb a) t) && distinct_strings t
  end.

(** The configured key [k], as [NewVanityHandler] stores it. *)
Definition normalize (k : string) : string := strings.TrimSuffix k "/".

(** [pc] is the entry [NewVanityHandler] builds from the binding of the
    key [k] to [e]: the path is the key normalized, the repo is kept, a
    stated display or kind is kept, a missing display is inferred for
    github and bitbucket repos and left empty otherwise, and a missing
    kind is git, which takes a github repo. *)
Definition built_from (k : string) (e : VanityPath) (pc : PathConfig) : Prop :=
  Path pc = normalize k
  /\ Repo pc = vp_Repo e
  /\ (vp_Display e <> "" -> Display pc = vp_Display e)
  /\ (vp_Display e = "" ->
      (is_prefix "https://github.com/" (vp_Repo e)
       /\ Display pc = github_display (vp_Repo e))
      \/ (~ is_prefix "https://github.com/" (vp_Repo e)
          /\ is_prefix "https://bitbucket.org" (vp_Repo e)
          /\ Display pc = bitbucket_display (vp_Repo e))
      \/ (~ is_prefix "https://github.com/" (vp_Repo e)
          /\ ~ is_prefix "https://bitbucket.org" (vp_Repo e)
          /\ Display pc = ""))
  /\ (vp_VCS e <> "" -> VCS pc = vp_VCS e /\ known_vcs (vp_VCS e))
  /\ (vp_VCS e = "" ->
      VCS pc = "git" /\ is_prefix "https://github.com/" (vp_Repo e)).

(** A template executor that writes the import path, the subpath and
    the repo, for the concrete examples. *)
Definition show_vanity (t : VanityTemplate) : option string :=
  Some (t_Import t ++ " " ++ t_SubPath t ++ " " ++ t_Repo t).

Definition show_index (d : IndexData) : option string :=
  Some (String.concat " " (i_Handlers d)).

(** A request for the path [p], sent to the host [go.example.org]. *)
Definition request (p : string) : Request :=
  {| r_URL_Path := p; r_Host := "go.example.org" |}.

(** A configuration whose second entry states no kind and has a repo
    outside github. *)
Definition rejected_config : VanityConfig :=
  {| cfg_Host := "example.com"; cfg_CacheAge := None;
     cfg_Paths := [binding "/ok";
                   ("/bad/", {| vp_Repo := "https://example.org/r";
                                vp_Display := ""; vp_VCS := "" |})] |}.

(** * Properties *)

(** ** Strings *)

Lemma length_append (s t : string) :
  String.length (s ++ t) = String.length s + String.length t.
Proof. induction s as [|c s IH]; simpl; [reflexivity | now rewrite IH]. Qed.

Lemma append_nil_r (s : string) : s ++ "" = s.
Proof. induction s as [|c s IH]; simpl; [reflexivity | now rewrite IH]. Qed.

Lemma append_assoc (s t u : string) : (s ++ t) ++ u = s ++ t ++ u.
Proof. induction s as [|c s IH]; simpl; [reflexivity | now rewrite IH]. Qed.

Lemma append_inv_head (s t u : string) : s ++ t = s ++ u -> t = u.
Proof. induction s as [|c s IH]; simpl; intros H; [assumption | injection H; auto]. Qed.

Lemma length_zero (s : string) : String.length s = 0 -> s = "".
Proof. destruct s; simpl; [reflexivity | discriminate]. Qed.

Lemma substring_all (s : string) : substring 0 (String.length s) s = s.
Proof. induction s as [|c s IH]; simpl; [reflexivity | now rewrite IH]. Qed.

Lemma substring_zero_app (p r : string) :
  substring 0 (String.length p) (p ++ r) = p.
Proof.
  induction p as [|c p IH]; simpl.
  - destruct r; reflexivity.
  - now rewrite IH.
Qed.

Lemma substring_skip_app (p r : string) (n : nat) :
  substring (String.length p) n (p ++ r) = substring 0 n r.
Proof. induction p as [|c p IH]; simpl; [reflexivity | exact IH]. Qed.

Lemma substring_zero_split (n : nat) (s : string) :
  n <= String.length s ->
  s = substring 0 n s ++ substring n (String.length s - n) s.
Proof.
  revert s; induction n as [|n IH]; intros s Hn.
  - simpl. rewrite Nat.sub_0_r.
    destruct s; simpl; [reflexivity | now rewrite substring_all].
  - destruct s as [|c s]; simpl in *; [lia |].
    f_equal. apply IH. lia.
Qed.

Lemma HasPrefix_iff (s p : string) :
  strings.HasPrefix s p = true <-> exists r, s = p ++ r.
Proof.
  unfold strings.HasPrefix. rewrite andb_true_iff, Nat.leb_le, String.eqb_eq.
  split.
  - intros [Hl He].
    exists (substring (String.length p) (String.length s - String.length p) s).
    rewrite <- He at 1. now apply substring_zero_split.
  - intros [r ->]. rewrite length_append, substring_zero_app. split; [lia | reflexivity].
Qed.

Lemma TrimPrefix_app (p r : string) : strings.TrimPrefix (p ++ r) p = r.
Proof.
  unfold strings.TrimPrefix.
  assert (H : strings.HasPrefix (p ++ r) p = true) by (apply HasPrefix_iff; eauto).
  rewrite H, substring_skip_app, length_append.
  replace (String.length p + String.length r - String.length p)
    with (String.length r) by lia.
  apply substring_all.
Qed.

Lemma TrimPrefix_cases (s p : string) :
  (exists r, s = p ++ r /\ strings.TrimPrefix s p = r)
  \/ ((forall r, s <> p ++ r) /\ strings.TrimPrefix s p = s).
Proof.
  destruct (strings.HasPrefix s p) eqn:H.
  - left. apply HasPrefix_iff in H. destruct H as [r ->].
    exists r. split; [reflexivity | apply TrimPrefix_app].
  - right. split.
    + intros r ->. assert (strings.HasPrefix (p ++ r) p = true)
        by (apply HasPrefix_iff; eauto). congruence.
    + unfold strings.TrimPrefix. now rewrite H.
Qed.

Lemma slice_from_app (p r : string) :
  slice_from (p ++ r) (String.length p) = Ok r.
Proof.
  unfold slice_from. rewrite length_append.
  replace (String.length p <=? String.length p + String.length r)%nat with true
    by (symmetry; apply Nat.leb_le; lia).
  rewrite substring_skip_app.
  replace (String.length p + String.length r - String.length p)
    with (String.length r) by lia.
  now rewrite substring_all.
Qed.

Lemma prefix_iff (p s : string) :
  String.prefix p s = true <-> exists r, s = p ++ r.
Proof.
  revert s; induction p as [|c p IH]; intros s.
  - simpl. split; [intros _; exists s; reflexivity | intros _; destruct s; reflexivity].
  - destruct s as [|d s]; simpl.
    + split; [discriminate | intros [r H]; discriminate].
    + destruct (ascii_dec c d) as [->|Hn].
      * rewrite IH. split; intros [r H]; exists r; [now rewrite H | now injection H].
      * split; [discriminate | intros [r H]; injection H; intros; congruence].
Qed.

(** ** The byte-wise order on strings *)

Lemma ascii_compare_refl (c : ascii) : Ascii.compare c c = Eq.
Proof. unfold Ascii.compare. apply N.compare_refl. Qed.

Lemma ascii_compare_lt_trans (a b c : ascii) :
  Ascii.compare a b = Lt -> Ascii.compare b c = Lt -> Ascii.compare a c = Lt.
Proof.
  unfold Ascii.compare. rewrite !N.compare_lt_iff. apply N.lt_trans.
Qed.

Lemma compare_refl (s : string) : String.compare s s = Eq.
Proof.
  induction s as [|c s IH]; simpl; [reflexivity |].
  now rewrite ascii_compare_refl.
Qed.

Lemma compare_lt_trans (a b c : string) :
  String.compare a b = Lt -> String.compare b c = Lt -> String.compare a c = Lt.
Proof.
  revert b c; induction a as [|x a IH]; intros [|y b] [|z c]; simpl;
    try discriminate; try reflexivity.
  destruct (Ascii.compare x y) eqn:Hxy; try discriminate;
    destruct (Ascii.compare y z) eqn:Hyz; try discriminate; intros H1 H2.
  - apply Ascii.compare_eq_iff in Hxy, Hyz. subst.
    rewrite ascii_compare_refl. eapply IH; eassumption.
  - apply Ascii.compare_eq_iff in Hxy. subst. now rewrite Hyz.
  - apply Ascii.compare_eq_iff in Hyz. subst. now rewrite Hxy.
  - now rewrite (ascii_compare_lt_trans _ _ _ Hxy Hyz).
Qed.

Lemma ltb_lt (a b : string) : (a <? b) = true <-> String.compare a b = Lt.
Proof. unfold String.ltb. destruct (String.compare a b); split; congruence. Qed.

Lemma leb_le (a b : string) : (a <=? b) = true <-> String.compare a b <> Gt.
Proof. unfold String.leb. destruct (String.compare a b); split; congruence. Qed.

Lemma leb_cases (a b : string) : (a <=? b) = true <-> (a <? b) = true \/ a = b.
Proof.
  rewrite leb_le, ltb_lt. split.
  - destruct (String.compare a b) eqn:H; intros Hn;
      [right; now apply String.compare_eq_iff | now left | congruence].
  - intros [H | ->]; [congruence | rewrite compare_refl; discriminate].
Qed.

Lemma ltb_irrefl (a : string) : (a <? a) = false.
Proof. unfold String.ltb. now rewrite compare_refl. Qed.

Lemma leb_refl (a : string) : (a <=? a) = true.
Proof. unfold String.leb. now rewrite compare_refl. Qed.

Lemma ltb_trans (a b c : string) :
  (a <? b) = true -> (b <? c) = true -> (a <? c) = true.
Proof. rewrite !ltb_lt. apply compare_lt_trans. Qed.

Lemma leb_trans (a b c : string) :
  (a <=? b) = true -> (b <=? c) = true -> (a <=? c) = true.
Proof.
  rewrite !leb_cases. intros [H1 | ->] [H2 | ->]; auto.
  left. eapply ltb_trans; eassumption.
Qed.

Lemma ltb_leb_trans (a b c : string) :
  (a <? b) = true -> (b <=? c) = true -> (a <? c) = true.
Proof.
  intros H1 H2. apply leb_cases in H2. destruct H2 as [H2 | ->]; auto.
  eapply ltb_trans; eassumption.
Qed.

Lemma leb_ltb_trans (a b c : string) :
  (a <=? b) = true -> (b <? c) = true -> (a <? c) = true.
Proof.
  intros H1 H2. apply leb_cases in H1. destruct H1 as [H1 | ->]; auto.
  eapply ltb_trans; eassumption.
Qed.

Lemma ltb_negb_leb (a b : string) : (a <? b) = negb (b <=? a).
Proof.
  unfold String.ltb, String.leb. rewrite (String.compare_antisym a b).
  destruct (String.compare b a); reflexivity.
Qed.

Lemma ltb_neq (a b : string) : (a <? b) = true -> a <> b.
Proof. intros H ->. rewrite ltb_irrefl in H. discriminate. Qed.

Lemma geb_false_ltb (a b : string) : string_geb a b = false <-> (a <? b) = true.
Proof.
  unfold string_geb. rewrite ltb_negb_leb.
  destruct (b <=? a); simpl; split; congruence.
Qed.

Lemma geb_true_leb (a b : string) : string_geb a b = true <-> (b <=? a) = true.
Proof. reflexivity. Qed.

(** A prefix sorts before (or with) every string it begins. *)
Lemma prefix_leb (p r : string) : (p <=? p ++ r) = true.
Proof.
  apply leb_le. induction p as [|c p IH]; simpl.
  - destruct r; discriminate.
  - now rewrite ascii_compare_refl.
Qed.

Lemma prefix_ltb (p r : string) : r <> "" -> (p <? p ++ r) = true.
Proof.
  intros Hr. pose proof (prefix_leb p r) as H. apply leb_cases in H.
  destruct H as [H | H]; [assumption |].
  exfalso. apply Hr. apply (append_inv_head p). now rewrite append_nil_r.
Qed.

(** Two prefixes of one string: the shorter is a prefix of the longer. *)
Lemma prefix_chain (p q r r' : string) :
  p ++ r = q ++ r' -> String.length q <= String.length p ->
  exists m, p = q ++ m.
Proof.
  revert q; induction p as [|c p IH]; intros [|d q]; simpl; intros He Hl.
  - exists "". reflexivity.
  - lia.
  - eexists. reflexivity.
  - injection He as -> He. destruct (IH q He) as [m ->]; [lia |].
    exists m. reflexivity.
Qed.

(** ** Sorted tables, by index *)

Lemma ascending_tail (a : PathConfig) (t : PathConfigSet) :
  ascending (a :: t) = true -> ascending t = true.
Proof.
  destruct t as [|b t]; [reflexivity |].
  change (ascending (a :: b :: t)) with ((Path a <=? Path b) && ascending (b :: t)).
  now intros [_ H]%andb_true_iff.
Qed.

Lemma ascending_head (a : PathConfig) (t : PathConfigSet) :
  ascending (a :: t) = true ->
  forall b, In b t -> (Path a <=? Path b) = true.
Proof.
  revert a; induction t as [|c t IH]; intros a H b Hin; [destruct Hin |].
  change (ascending (a :: c :: t)) with ((Path a <=? Path c) && ascending (c :: t)) in H.
  apply andb_true_iff in H. destruct H as [Hac Ht].
  destruct Hin as [-> | Hin]; [assumption |].
  eapply leb_trans; [exact Hac | now apply IH].
Qed.

Lemma ascending_nth (pset : PathConfigSet) (i j : nat) (a b : PathConfig) :
  ascending pset = true -> i <= j ->
  nth_error pset i = Some a -> nth_error pset j = Some b ->
  (Path a <=? Path b) = true.
Proof.
  revert i j; induction pset as [|c t IH]; intros i j Hs Hij Ha Hb.
  - destruct i; discriminate.
  - destruct i as [|i].
    + injection Ha as ->. destruct j as [|j].
      * injection Hb as ->. apply leb_refl.
      * apply (ascending_head _ _ Hs). eapply nth_error_In; eassumption.
    + destruct j as [|j]; [lia |].
      apply (IH i j); [eapply ascending_tail; eassumption | lia | assumption | assumption].
Qed.

Lemma strictly_ascending_tail (a : PathConfig) (t : PathConfigSet) :
  strictly_ascending (a :: t) = true -> strictly_ascending t = true.
Proof.
  destruct t as [|b t]; [reflexivity |].
  change (strictly_ascending (a :: b :: t))
    with ((Path a <? Path b) && strictly_ascending (b :: t)).
  now intros [_ H]%andb_true_iff.
Qed.

Lemma strictly_ascending_ascending (pset : PathConfigSet) :
  strictly_ascending pset = true -> ascending pset = true.
Proof.
  induction pset as [|a [|b t] IH]; try reflexivity.
  change (strictly_ascending (a :: b :: t))
    with ((Path a <? Path b) && strictly_ascending (b :: t)).
  change (ascending (a :: b :: t)) with ((Path a <=? Path b) && ascending (b :: t)).
  rewrite !andb_true_iff. intros [H1 H2]. split; [| now apply IH].
  apply leb_cases. now left.
Qed.

Lemma strictly_ascending_head (a : PathConfig) (t : PathConfigSet) :
  strictly_ascending (a :: t) = true ->
  forall b, In b t -> (Path a <? Path b) = true.
Proof.
  intros H b Hin. destruct t as [|c t]; [destruct Hin |].
  change (strictly_ascending (a :: c :: t))
    with ((Path a <? Path c) && strictly_ascending (c :: t)) in H.
  apply andb_true_iff in H. destruct H as [Hac Ht].
  destruct Hin as [-> | Hin]; [assumption |].
  eapply ltb_leb_trans; [exact Hac |].
  apply (ascending_head c t); [now apply strictly_ascending_ascending | assumption].
Qed.

Lemma strictly_ascending_nth (pset : PathConfigSet) (i j : nat) (a b : PathConfig) :
  strictly_ascending pset = true -> i < j ->
  nth_error pset i = Some a -> nth_error pset j = Some b ->
  (Path a <? Path b) = true.
Proof.
  revert i j; induction pset as [|c t IH]; intros i j Hs Hij Ha Hb.
  - destruct i; discriminate.
  - destruct j as [|j]; [lia |]. destruct i as [|i].
    + injection Ha as ->. apply (strictly_ascending_head _ _ Hs).
      eapply nth_error_In; eassumption.
    + apply (IH i j); [eapply strictly_ascending_tail; eassumption | lia | assumption | assumption].
Qed.

(** In a strictly ascending table a path designates one index. *)
Lemma strictly_ascending_inj (pset : PathConfigSet) (i j : nat) (a b : PathConfig) :
  strictly_ascending pset = true ->
  nth_error pset i = Some a -> nth_error pset j = Some b ->
  Path a = Path b -> i = j.
Proof.
  intros Hs Ha Hb He.
  destruct (Nat.lt_trichotomy i j) as [H | [H | H]]; [| assumption |].
  - pose proof (strictly_ascending_nth _ _ _ _ _ Hs H Ha Hb) as Hl.
    rewrite He, ltb_irrefl in Hl. discriminate.
  - pose proof (strictly_ascending_nth _ _ _ _ _ Hs H Hb Ha) as Hl.
    rewrite He, ltb_irrefl in Hl. discriminate.
Qed.

(** ** [sort.Search] *)

Lemma half_bounds (i j : nat) : i < j -> i <= (i + j) / 2 < j.
Proof.
  intros H. pose proof (Nat.div_mod_eq (i + j) 2).
  pose proof (Nat.mod_upper_bound (i + j) 2). lia.
Qed.

(** The loop returns, and stays within its bounds, as soon as the
    predicate is defined below [j]. *)
Lemma Search_loop_total (f : nat -> result bool) (i j : nat) :
  (forall k, k < j -> exists b, f k = Ok b) ->
  exists r, Search_loop f i j = Ok r /\ (i <= j -> i <= r <= j).
Proof.
  funelim (Search_loop f i j); intros Hf.
  - exists i. split; [reflexivity | lia].
  - pose proof (half_bounds i j l) as Hh.
    destruct H as [r [Hr Hb]].
    + intros k Hk. apply Hf. lia.
    + exists r. split; [assumption | lia].
  - pose proof (half_bounds i j l) as Hh.
    destruct H as [r [Hr Hb]]; [exact Hf |].
    exists r. split; [assumption | lia].
  - destruct (Hf ((i + j) / 2)) as [b Hb]; [apply half_bounds; assumption |].
    congruence.
Qed.

(** On a monotone predicate the loop returns the first index at which
    it holds. *)
Lemma Search_loop_first (f : nat -> result bool) (g : nat -> bool) (n i j : nat) :
  (forall k, k < n -> f k = Ok (g k)) ->
  (forall k k', k <= k' -> k' < n -> g k = true -> g k' = true) ->
  i <= j -> j <= n ->
  (forall k, k < i -> g k = false) ->
  (forall k, j <= k -> k < n -> g k = true) ->
  exists r, Search_loop f i j = Ok r /\ i <= r <= j
            /\ (forall k, k < r -> g k = false)
            /\ (forall k, r <= k -> k < n -> g k = true).
Proof.
  funelim (Search_loop f i j); intros Hf Hmono Hij Hjn Hlo Hhi.
  - exists i. repeat split; try assumption; try lia.
    intros k Hk Hkn. apply Hhi; lia.
  - pose proof (half_bounds i j l) as Hh.
    assert (Hg : g ((i + j) / 2) = true) by (rewrite Hf in Heq by lia; congruence).
    destruct (H g n) as [r [Hr [Hb [H1 H2]]]]; try assumption; try lia.
    + intros k Hk Hkn. apply (Hmono ((i + j) / 2)); assumption.
    + exists r. repeat split; try assumption; try lia.
  - pose proof (half_bounds i j l) as Hh.
    assert (Hg : g ((i + j) / 2) = false) by (rewrite Hf in Heq by lia; congruence).
    destruct (H g n) as [r [Hr [Hb [H1 H2]]]]; try assumption; try lia.
    + intros k Hk. destruct (g k) eqn:Hgk; [| reflexivity].
      rewrite (Hmono k ((i + j) / 2)) in Hg; [discriminate | lia | lia | assumption].
    + exists r. repeat split; try assumption; try lia.
  - pose proof (half_bounds i j l) as Hh.
    rewrite Hf in Heq by lia. discriminate.
Qed.

(** ** Slices *)

Lemma index_Some {A} (l : list A) (i : nat) (a : A) :
  nth_error l i = Some a -> index l i = Ok a.
Proof. unfold index. now intros ->. Qed.

Lemma index_lt {A} (l : list A) (i : nat) :
  i < List.length l -> exists a, nth_error l i = Some a /\ index l i = Ok a.
Proof.
  intros H. destruct (nth_error l i) as [a|] eqn:E.
  - exists a. split; [reflexivity | now apply index_Some].
  - apply nth_error_None in E. lia.
Qed.

(** ** The slow-path loop of [find] *)

(** Loop rule: an invariant kept by every iteration holds at the end,
    and the loop does not panic while it stays inside the table. *)
Lemma scan_rule (pset : PathConfigSet) (path : string)
      (P : nat -> scan_state -> Prop) (n : nat) :
  forall i st,
    i + n <= List.length pset ->
    P i st ->
    (forall k ps s, i <= k -> k < i + n -> nth_error pset k = Some ps ->
                    P k s -> P (S k) (scan_step path k ps s)) ->
    exists st', scan pset path i n st = Ok st' /\ P (i + n) st'.
Proof.
  induction n as [|n IH]; intros i st Hlen HP Hstep; simpl.
  - exists st. rewrite Nat.add_0_r. auto.
  - destruct (index_lt pset i) as [ps [Hn Hi]]; [lia |].
    rewrite Hi. simpl.
    destruct (IH (S i) (scan_step path i ps st)) as [st' [Hs HP']].
    + lia.
    + apply Hstep; [lia | lia | assumption | assumption].
    + intros k ps' s Hk1 Hk2. apply Hstep; lia.
    + exists st'. split; [assumption |].
      replace (i + S n) with (S i + n) by lia. assumption.
Qed.

Lemma scan_step_inv (pset : PathConfigSet) (path : string) (k : nat)
      (ps : PathConfig) (st : scan_state) :
  nth_error pset k = Some ps ->
  scan_inv pset path k st -> scan_inv pset path (S k) (scan_step path k ps st).
Proof.
  intros Hk [Hsel Hmax]. unfold scan_step.
  assert (Hbound : lenShortestSubpath st <= String.length path).
  { destruct Hsel as [[_ [_ Hn]] | [m [e [_ [_ [_ [Hpe [_ [_ Hl]]]]]]]]]; [lia |].
    apply (f_equal String.length) in Hpe. rewrite length_append in Hpe. lia. }
  destruct (String.length path <=? String.length (Path ps))%nat eqn:Hlen.
  - (* continue *)
    apply Nat.leb_le in Hlen. split.
    + destruct Hsel as [Hn | [m [e [H1 [H2 H3]]]]]; [left; assumption |].
      right. exists m, e. repeat split; try tauto. lia.
    + intros m e r Hm He Hp Hne Hr.
      destruct (Nat.eq_dec m k) as [-> | Hmk]; [| apply (Hmax m e r); auto; lia].
      rewrite Hk in He. injection He as <-.
      apply (f_equal String.length) in Hp. rewrite length_append in Hp.
      destruct r; [congruence | simpl in Hp; lia].
  - apply Nat.leb_gt in Hlen.
    destruct (TrimPrefix_cases path (Path ps)) as [[r [Hp Ht]] | [Hnp Ht]];
      rewrite Ht; cbv zeta.
    + assert (Hlr : String.length path = String.length (Path ps) + String.length r)
        by (rewrite Hp at 1; apply length_append).
      destruct (String.length r <? lenShortestSubpath st)%nat eqn:Hlt.
      * apply Nat.ltb_lt in Hlt. split.
        -- right. exists k, ps. simpl. repeat split; try assumption; try lia.
           ++ intros He. rewrite He in Hlr. simpl in Hlr. lia.
           ++ intros He. rewrite He in Hlr. simpl in Hlr. lia.
        -- simpl. intros m e r' Hm He Hp' Hne Hr'.
           destruct (Nat.eq_dec m k) as [-> | Hmk].
           ++ rewrite Hk in He. injection He as <-.
              rewrite Hp in Hp'. apply append_inv_head in Hp'. subst. lia.
           ++ assert (lenShortestSubpath st <= String.length r'); [| lia].
              apply (Hmax m e r'); auto; lia.
      * apply Nat.ltb_ge in Hlt. split.
        -- destruct Hsel as [Hn | [m [e [H1 [H2 H3]]]]]; [left; assumption |].
           right. exists m, e. repeat split; try tauto. lia.
        -- intros m e r' Hm He Hp' Hne Hr'.
           destruct (Nat.eq_dec m k) as [-> | Hmk]; [| apply (Hmax m e r'); auto; lia].
           rewrite Hk in He. injection He as <-.
           rewrite Hp in Hp'. apply append_inv_head in Hp'. subst. lia.
    + assert (Hge : (String.length path <? lenShortestSubpath st)%nat = false).
      { apply Nat.ltb_ge. lia. }
      rewrite Hge. split.
      * destruct Hsel as [Hn | [m [e [H1 [H2 H3]]]]]; [left; assumption |].
        right. exists m, e. repeat split; try tauto. lia.
      * intros m e r' Hm He Hp' Hne Hr'.
        destruct (Nat.eq_dec m k) as [-> | Hmk]; [| apply (Hmax m e r'); auto; lia].
        rewrite Hk in He. injection He as <-. exfalso. apply (Hnp r'). assumption.
Qed.

Lemma scan_init_inv (pset : PathConfigSet) (path : string) :
  scan_inv pset path 0 (scan_init path).
Proof.
  split; [left; repeat split | intros m e r Hm; lia].
Qed.

Lemma scan_spec (pset : PathConfigSet) (path : string) (i : nat) :
  i <= List.length pset ->
  exists st, scan pset path 0 i (scan_init path) = Ok st
             /\ scan_inv pset path i st.
Proof.
  intros Hi.
  destruct (scan_rule pset path (scan_inv pset path) i 0 (scan_init path))
    as [st [Hs Hinv]].
  - simpl; lia.
  - apply scan_init_inv.
  - intros k ps s _ _. apply scan_step_inv.
  - exists st. auto.
Qed.

(** ** The structure of [find] *)

Lemma search_pred_ok (pset : PathConfigSet) (path : string) (k : nat) :
  k < Len pset -> search_pred pset path k = Ok (geb_at pset path k).
Proof.
  intros Hk. unfold search_pred, geb_at.
  destruct (index_lt pset k Hk) as [e [Hn Hi]]. now rewrite Hi, Hn.
Qed.

(** The binary search returns an index of the table, sorted or not. *)
Lemma find_Search_total (pset : PathConfigSet) (path : string) :
  exists i, Search (Len pset) (search_pred pset path) = Ok i /\ i <= Len pset.
Proof.
  destruct (Search_loop_total (search_pred pset path) 0 (Len pset)) as [i [Hs Hb]].
  - intros k Hk. eexists. now apply search_pred_ok.
  - exists i. split; [exact Hs | lia].
Qed.

(** On an ascending table it returns the first index whose path is not
    below the query. *)
Lemma find_Search_sorted (pset : PathConfigSet) (path : string) :
  ascending pset = true ->
  exists i, Search (Len pset) (search_pred pset path) = Ok i /\ i <= Len pset
    /\ (forall k e, k < i -> nth_error pset k = Some e -> (Path e <? path) = true)
    /\ (forall k e, i <= k -> nth_error pset k = Some e -> (path <=? Path e) = true).
Proof.
  intros Hs.
  destruct (Search_loop_first (search_pred pset path) (geb_at pset path)
              (Len pset) 0 (Len pset)) as [i [Hi [Hb [Hlo Hhi]]]].
  - intros k Hk. now apply search_pred_ok.
  - intros k k' Hkk Hk'. unfold geb_at.
    destruct (index_lt pset k') as [b [Hb _]]; [exact Hk' |].
    destruct (index_lt pset k) as [a [Ha _]]; [unfold Len in Hk'; lia |].
    rewrite Ha, Hb. unfold string_geb. intros Hg.
    eapply leb_trans; [exact Hg |].
    exact (ascending_nth pset k k' a b Hs Hkk Ha Hb).
  - lia.
  - lia.
  - intros k Hk. lia.
  - intros k Hk1 Hk2. lia.
  - exists i. split; [exact Hi |]. split; [lia |]. split.
    + intros k e Hk He. specialize (Hlo k Hk). unfold geb_at in Hlo.
      rewrite He in Hlo. now apply geb_false_ltb.
    + intros k e Hk He. apply geb_true_leb.
      assert (Hkn : k < Len pset) by (apply nth_error_Some; congruence).
      specialize (Hhi k Hk Hkn). unfold geb_at in Hhi. now rewrite He in Hhi.
Qed.

(** The three ways out of [find], for the index [i] the search returns. *)
Lemma find_cases (pset : PathConfigSet) (path : string) (i : nat) :
  Search (Len pset) (search_pred pset path) = Ok i -> i <= Len pset ->
  (exists e, nth_error pset i = Some e /\ Path e = path
             /\ find pset path = Ok (Some i, ""))
  \/ ((forall e, nth_error pset i = Some e -> Path e <> path)
      /\ exists e sub, 0 < i /\ nth_error pset (i - 1) = Some e
                       /\ path = (Path e ++ "/") ++ sub
                       /\ find pset path = Ok (Some (i - 1), sub))
  \/ ((forall e, nth_error pset i = Some e -> Path e <> path)
      /\ (forall e sub, 0 < i -> nth_error pset (i - 1) = Some e ->
                        path <> (Path e ++ "/") ++ sub)
      /\ exists st, scan_inv pset path i st
                    /\ find pset path = Ok (bestMatchConfig st, subpath st)).
Proof.
  intros Hs Hi. unfold find.
  change (fun i0 : nat => e <- index pset i0;; Ok (string_geb (Path e) path))
    with (search_pred pset path).
  rewrite Hs. cbn [bind].
  assert (Hexact :
    (exists e, nth_error pset i = Some e /\ Path e = path
       /\ (if (i <? Len pset)%nat
           then e <- index pset i ;; Ok (Path e =? path)
           else Ok false) = Ok true)
    \/ ((forall e, nth_error pset i = Some e -> Path e <> path)
        /\ (if (i <? Len pset)%nat
            then e <- index pset i ;; Ok (Path e =? path)
            else Ok false) = Ok false)).
  { destruct (i <? Len pset)%nat eqn:Hlt.
    - apply Nat.ltb_lt in Hlt. destruct (index_lt pset i Hlt) as [e [Hn He]].
      rewrite He. cbn [bind]. destruct (Path e =? path) eqn:Hp.
      + left. exists e. apply String.eqb_eq in Hp. auto.
      + right. split; [| reflexivity]. intros e' He'.
        rewrite Hn in He'. injection He' as <-. now apply String.eqb_neq.
    - right. split; [| reflexivity]. intros e He.
      apply Nat.ltb_ge in Hlt.
      assert (i < Len pset) by (apply nth_error_Some; congruence). lia. }
  destruct Hexact as [[e [Hn [Hp Hx]]] | [Hne Hx]]; rewrite Hx; cbn [bind].
  { left. exists e. auto. }
  right.
  destruct (0 <? i)%nat eqn:Hpos.
  - apply Nat.ltb_lt in Hpos.
    destruct (index_lt pset (i - 1)) as [e [Hn He]]; [unfold Len in Hi; lia |].
    rewrite He. cbn [bind].
    destruct (strings.HasPrefix path (Path e ++ "/")) eqn:Hpre.
    + left. split; [exact Hne |].
      apply HasPrefix_iff in Hpre. destruct Hpre as [sub Hsub].
      exists e, sub. repeat split; try assumption.
      replace (String.length (Path e) + 1) with (String.length (Path e ++ "/"))
        by (rewrite length_append; reflexivity).
      rewrite Hsub at 1. rewrite slice_from_app. reflexivity.
    + right. split; [exact Hne |]. split.
      * intros e' sub _ He' Hsub. rewrite Hn in He'. injection He' as <-.
        assert (strings.HasPrefix path (Path e ++ "/") = true)
          by (apply HasPrefix_iff; eauto).
        congruence.
      * destruct (scan_spec pset path i Hi) as [st [Hsc Hinv]].
        unfold scan_init in Hsc. rewrite Hsc. cbn [bind].
        exists st. auto.
  - right. split; [exact Hne |]. split.
    + intros e sub Hp. apply Nat.ltb_ge in Hpos. lia.
    + destruct (scan_spec pset path i Hi) as [st [Hsc Hinv]].
      unfold scan_init in Hsc. rewrite Hsc. cbn [bind].
      exists st. auto.
Qed.

(** ** The subpath of a match *)

(** C4 (amended). On a table in ascending order, whenever [find]
    returns a match, the matched entry's path is a prefix of the query
    and one of three cases holds.  Exact match: the subpath is empty
    and the path equals the query.  Immediate child: the query is the
    path, a slash and the subpath, and the matched entry is the last
    one that sorts below the query.  General scan: the path is a
    non-empty proper prefix of the query and the subpath is the rest of
    the query after it, with or without a slash in front; it is that
    rest exactly when the rest does not begin with a slash, and a rest
    that begins with a slash is met only when another entry sorts
    between the matched entry and the query. *)
Theorem find_subpath (pset : PathConfigSet) (path : string) (i : nat) (sub : string) :
  ascending pset = true ->
  find pset path = Ok (Some i, sub) ->
  exists e, nth_error pset i = Some e
    /\ ((sub = "" /\ Path e = path)
        \/ (path = Path e ++ "/" ++ sub
            /\ forall k e', i < k -> nth_error pset k = Some e' ->
                            (path <=? Path e') = true)
        \/ (Path e <> ""
            /\ exists rest,
                 path = Path e ++ rest /\ rest <> ""
                 /\ (sub = rest \/ rest = "/" ++ sub)
                 /\ (strings.HasPrefix rest "/" = false -> sub = rest)
                 /\ (strings.HasPrefix rest "/" = true ->
                     exists k e', i < k /\ nth_error pset k = Some e'
                                  /\ (Path e' <? path) = true))).
Proof.
  intros Hasc Hfind.
  destruct (find_Search_sorted pset path Hasc) as [s [Hs [Hsl [Hlo Hhi]]]].
  destruct (find_cases pset path s Hs Hsl)
    as [[e [Hn [Hp Hf]]] | [[Hne [e [sub' [Hpos [Hn [Hp Hf]]]]]]
                            | [Hne [Hnc [st [[Hsel _] Hf]]]]]];
    rewrite Hf in Hfind; injection Hfind as Hi Hsub.
  - subst. exists e. auto.
  - subst. exists e. split; [assumption |]. right. left.
    split; [now rewrite <- append_assoc |].
    intros k e' Hk He'. apply (Hhi k e'); [lia | assumption].
  - destruct Hsel as [[Hb _] | [m [e [Hb [Hm [Hn [Hp [Hne' [Hsn _]]]]]]]]];
      [congruence |].
    rewrite Hb in Hi. injection Hi as ->. subst sub.
    exists e. split; [assumption |]. right. right. split; [assumption |].
    exists (subpath st). split; [assumption |]. split; [assumption |].
    split; [now left |]. split; [reflexivity |].
    intros Hslash. apply HasPrefix_iff in Hslash. destruct Hslash as [r' Hr'].
    destruct (index_lt pset (s - 1)) as [e1 [Hn1 _]]; [unfold Len in Hsl; lia |].
    destruct (Nat.eq_dec i (s - 1)) as [Heq | Hneq].
    + exfalso. subst i. rewrite Hn in Hn1. injection Hn1 as <-.
      apply (Hnc e r'); [lia | assumption |].
      rewrite append_assoc, <- Hr'. exact Hp.
    + exists (s - 1), e1. split; [lia |]. split; [assumption |].
      apply (Hlo (s - 1)); [lia | assumption].
Qed.

(** ** Exact matches *)

Lemma distinct_paths_inj (pset : PathConfigSet) (a b : PathConfig) :
  distinct_paths pset = true -> In a pset -> In b pset ->
  Path a = Path b -> a = b.
Proof.
  induction pset as [|c t IH]; intros Hd Ha Hb He; [destruct Ha |].
  simpl in Hd. apply andb_true_iff in Hd. destruct Hd as [Hc Hd].
  apply negb_true_iff in Hc.
  assert (Hnot : forall x, In x t -> Path x <> Path c).
  { intros x Hx Hxc.
    assert (existsb (fun b0 => Path b0 =? Path c) t = true); [| congruence].
    apply existsb_exists. exists x. split; [assumption | now apply String.eqb_eq]. }
  destruct Ha as [-> | Ha], Hb as [-> | Hb].
  - reflexivity.
  - exfalso. apply (Hnot b Hb). now symmetry.
  - exfalso. now apply (Hnot a Ha).
  - now apply IH.
Qed.

(** C5. On a table sorted ascending by path, when an entry [e] has the
    request path as its path, [find] returns a pointer to an entry with
    that path, with the empty subpath; that entry is [e] itself as soon
    as the paths of the table are pairwise distinct. *)
Theorem find_exact (pset : PathConfigSet) (path : string) (e : PathConfig) :
  ascending pset = true -> In e pset -> Path e = path ->
  exists i pc,
    find pset path = Ok (Some i, "")
    /\ nth_error pset i = Some pc /\ Path pc = path
    /\ (distinct_paths pset = true -> pc = e).
Proof.
  intros Hasc Hin Hpath.
  destruct (In_nth_error _ _ Hin) as [k Hk].
  destruct (find_Search_sorted pset path Hasc) as [i [Hs [Hi [Hlo Hhi]]]].
  assert (Hik : i <= k).
  { destruct (le_lt_dec i k) as [H | H]; [assumption |].
    specialize (Hlo k e H Hk). rewrite Hpath, ltb_irrefl in Hlo. discriminate. }
  assert (Hkn : k < Len pset) by (apply nth_error_Some; congruence).
  destruct (index_lt pset i) as [pc [Hpc _]]; [unfold Len in Hkn; lia |].
  assert (Heq : Path pc = path).
  { apply String.leb_antisym.
    - rewrite <- Hpath. exact (ascending_nth pset i k pc e Hasc Hik Hpc Hk).
    - apply (Hhi i pc); [lia | assumption]. }
  destruct (find_cases pset path i Hs Hi)
    as [[e' [Hn [Hp Hf]]] | [[Hne _] | [Hne _]]];
    try (exfalso; exact (Hne pc Hpc Heq)).
  exists i, pc. repeat split; try assumption.
  intros Hd. apply (distinct_paths_inj pset); try assumption.
  - eapply nth_error_In; eassumption.
  - congruence.
Qed.

(** ** [find] against the naive resolution *)

Lemma strict_prefix_iff (p s : string) :
  strict_prefix p s = true <-> exists r, s = p ++ r /\ r <> "".
Proof.
  unfold strict_prefix. rewrite andb_true_iff, prefix_iff, Nat.ltb_lt. split.
  - intros [[r ->] Hl]. exists r. split; [reflexivity |].
    intros ->. rewrite append_nil_r in Hl. lia.
  - intros [r [-> Hr]]. split; [eauto |].
    rewrite length_append. destruct r; [congruence | simpl; lia].
Qed.

Lemma strict_prefix_ltb (p s : string) :
  strict_prefix p s = true -> (p <? s) = true.
Proof.
  intros H. apply strict_prefix_iff in H. destruct H as [r [-> Hr]].
  now apply prefix_ltb.
Qed.

Lemma prefix_same_length (p q r r' : string) :
  p ++ r = q ++ r' -> String.length p = String.length q -> p = q.
Proof.
  intros He Hl. destruct (prefix_chain p q r r' He) as [m Hm]; [lia |].
  assert (m = "").
  { apply length_zero. apply (f_equal String.length) in Hm.
    rewrite length_append in Hm. lia. }
  subst m. now rewrite append_nil_r in Hm.
Qed.

Lemma naive_exact_Some (pset : PathConfigSet) (path : string) (e : PathConfig) :
  naive_exact pset path = Some e -> In e pset /\ Path e = path.
Proof.
  intros H. apply find_some in H. destruct H as [Hin He].
  split; [assumption | now apply String.eqb_eq].
Qed.

Lemma naive_exact_None (pset : PathConfigSet) (path : string) :
  (forall e, In e pset -> Path e <> path) -> naive_exact pset path = None.
Proof.
  intros H. destruct (naive_exact pset path) as [e|] eqn:E; [| reflexivity].
  apply naive_exact_Some in E. destruct E as [Hin He]. now elim (H e Hin).
Qed.

(** What the naive scan for the longest strict prefix returns. *)
Lemma naive_longest_spec (pset : PathConfigSet) (path : string) :
  forall best,
    (forall b, best = Some b -> strict_prefix (Path b) path = true) ->
    match naive_longest pset path best with
    | None =>
        best = None
        /\ forall e, In e pset -> strict_prefix (Path e) path = false
    | Some r =>
        (best = Some r \/ In r pset)
        /\ strict_prefix (Path r) path = true
        /\ (forall b, best = Some b ->
                      String.length (Path b) <= String.length (Path r))
        /\ (forall e, In e pset -> strict_prefix (Path e) path = true ->
                      String.length (Path e) <= String.length (Path r))
    end.
Proof.
  induction pset as [|a t IH]; intros best Hbest; simpl.
  - destruct best as [b|].
    + repeat split; auto.
      * intros b' Hb'. injection Hb' as <-. lia.
      * intros e [].
    + split; [reflexivity | intros e []].
  - set (best' := if strict_prefix (Path a) path
                     && match best with
                        | Some b => (String.length (Path b) <? String.length (Path a))%nat
                        | None => true
                        end
                  then Some a else best).
    assert (Hbest' : forall b, best' = Some b -> strict_prefix (Path b) path = true).
    { intros b. unfold best'.
      destruct (strict_prefix (Path a) path) eqn:Hsp; simpl; [| apply Hbest].
      destruct best as [b0|].
      - destruct (String.length (Path b0) <? String.length (Path a))%nat;
          [intros Hb; injection Hb as <-; assumption | apply Hbest].
      - intros Hb; injection Hb as <-; assumption. }
    assert (Hcmp : forall r, (forall b, best' = Some b ->
                                 String.length (Path b) <= String.length (Path r)) ->
                   (forall b, best = Some b ->
                              String.length (Path b) <= String.length (Path r))
                   /\ (strict_prefix (Path a) path = true ->
                       String.length (Path a) <= String.length (Path r))).
    { intros r Hr. unfold best' in Hr.
      destruct (strict_prefix (Path a) path) eqn:Hsp; simpl in Hr.
      - destruct best as [b0|].
        + destruct (String.length (Path b0) <? String.length (Path a))%nat eqn:Hlt.
          * apply Nat.ltb_lt in Hlt. specialize (Hr a eq_refl). split.
            -- intros b Hb. injection Hb as <-. lia.
            -- intros _. assumption.
          * apply Nat.ltb_ge in Hlt. specialize (Hr b0 eq_refl). split.
            -- intros b Hb. injection Hb as <-. assumption.
            -- intros _. lia.
        + specialize (Hr a eq_refl). split; [intros b Hb; discriminate | auto].
      - split; [assumption | discriminate]. }
    specialize (IH best' Hbest').
    destruct (naive_longest t path best') as [r|].
    + destruct IH as [Hin [Hsp [Hb Ht]]].
      destruct (Hcmp r Hb) as [Hb1 Hb2].
      repeat split; try assumption.
      * destruct Hin as [Hin | Hin]; [| right; right; assumption].
        unfold best' in Hin.
        destruct (strict_prefix (Path a) path
                  && match best with
                     | Some b => (String.length (Path b) <? String.length (Path a))%nat
                     | None => true
                     end);
          [injection Hin as ->; right; left; reflexivity | left; assumption].
      * intros e [<- | He] Hse; [now apply Hb2 | now apply Ht].
    + destruct IH as [Hnone Ht]. unfold best' in Hnone.
      destruct (strict_prefix (Path a) path) eqn:Hsp; simpl in Hnone.
      * destruct best as [b0|];
          [destruct (String.length (Path b0) <? String.length (Path a))%nat |];
          discriminate.
      * split; [assumption |]. intros e [<- | He]; [assumption | now apply Ht].
Qed.

Section Refinement.

Variable pset : PathConfigSet.
Variable path : string.
Variable i : nat.
Hypothesis Hsorted : strictly_ascending pset = true.
Hypothesis Hlo : forall k e, k < i -> nth_error pset k = Some e ->
                             (Path e <? path) = true.
Hypothesis Hhi : forall k e, i <= k -> nth_error pset k = Some e ->
                             (path <=? Path e) = true.

(** A strict prefix of the query sits below the search position. *)
Lemma strict_prefix_below (k : nat) (e : PathConfig) :
  nth_error pset k = Some e -> strict_prefix (Path e) path = true -> k < i.
Proof.
  intros Hk Hsp. destruct (le_lt_dec i k) as [H | H]; [| assumption].
  apply strict_prefix_ltb in Hsp. specialize (Hhi k e H Hk).
  rewrite ltb_negb_leb, Hhi in Hsp. discriminate.
Qed.

(** Without an exact match at [i] there is none in the table. *)
Lemma no_exact_anywhere :
  (forall e, nth_error pset i = Some e -> Path e <> path) ->
  forall e, In e pset -> Path e <> path.
Proof.
  intros Hne e Hin Hp. destruct (In_nth_error _ _ Hin) as [k Hk].
  destruct (le_lt_dec i k) as [H | H].
  - assert (Hkn : k < List.length pset) by (apply nth_error_Some; congruence).
    destruct (index_lt pset i) as [a [Ha _]]; [lia |].
    apply (Hne a Ha). apply String.leb_antisym.
    + rewrite <- Hp.
      apply (ascending_nth pset i k a e); auto.
      now apply strictly_ascending_ascending.
    + apply (Hhi i a); [lia | assumption].
  - specialize (Hlo k e H Hk). rewrite Hp, ltb_irrefl in Hlo. discriminate.
Qed.

(** The entry just below the search position, when it is a prefix of
    the query, is the longest prefix in the table. *)
Lemma predecessor_longest (e r : PathConfig) :
  0 < i -> nth_error pset (i - 1) = Some e ->
  strict_prefix (Path e) path = true ->
  In r pset -> strict_prefix (Path r) path = true ->
  String.length (Path e) <= String.length (Path r) -> r = e.
Proof.
  intros Hpos He Hspe Hin Hspr Hlen.
  destruct (In_nth_error _ _ Hin) as [k Hk].
  pose proof (strict_prefix_below k r Hk Hspr) as Hki.
  destruct (Nat.eq_dec k (i - 1)) as [-> | Hne]; [congruence |].
  exfalso.
  assert (Hlt : (Path r <? Path e) = true)
    by (apply (strictly_ascending_nth pset k (i - 1)); auto; lia).
  apply strict_prefix_iff in Hspe, Hspr.
  destruct Hspe as [re [Hpe _]], Hspr as [rr [Hpr _]].
  destruct (prefix_chain (Path r) (Path e) rr re) as [m Hm]; [congruence | lia |].
  pose proof (prefix_leb (Path e) m) as Hle. rewrite <- Hm in Hle.
  rewrite ltb_negb_leb, Hle in Hlt. discriminate.
Qed.

End Refinement.

(** C2 (amended). On every table that is strictly ascending by path
    (sorted, with pairwise distinct paths) and has no empty path, and
    for every query, [find] returns, without a panic, a pointer to the
    entry the naive scan selects: the exact match if present, otherwise
    the longest configured path that is a strict prefix of the query,
    and no match when there is none. *)
Theorem find_refines_naive (pset : PathConfigSet) (path : string) :
  strictly_ascending pset = true -> nonempty_paths pset = true ->
  exists pc sub,
    find pset path = Ok (pc, sub) /\ deref pset pc = naive_Resolve pset path.
Proof.
  intros Hsorted Hne.
  pose proof (strictly_ascending_ascending pset Hsorted) as Hasc.
  assert (Hnonempty : forall e, In e pset -> Path e <> "").
  { intros e Hin. unfold nonempty_paths in Hne.
    rewrite forallb_forall in Hne. specialize (Hne e Hin).
    apply negb_true_iff in Hne. now apply String.eqb_neq. }
  destruct (find_Search_sorted pset path Hasc) as [i [Hs [Hi [Hlo Hhi]]]].
  unfold naive_Resolve.
  destruct (find_cases pset path i Hs Hi)
    as [[e [Hn [Hp Hf]]] | [[Hnx [e [sub [Hpos [Hn [Hp Hf]]]]]]
                            | [Hnx [Hnc [st [[Hsel Hmax] Hf]]]]]].
  - (* exact match *)
    exists (Some i), "". split; [exact Hf |]. simpl.
    destruct (naive_exact pset path) as [e'|] eqn:E.
    + apply naive_exact_Some in E. destruct E as [Hin He'].
      destruct (In_nth_error _ _ Hin) as [k Hk].
      assert (k = i)
        by (apply (strictly_ascending_inj pset k i e' e); congruence).
      congruence.
    + exfalso. apply find_none with (x := e) in E;
        [| eapply nth_error_In; eassumption].
      rewrite Hp, String.eqb_refl in E. discriminate.
  - (* immediate child *)
    exists (Some (i - 1)), sub. split; [exact Hf |]. simpl.
    rewrite naive_exact_None
      by (apply (no_exact_anywhere pset path i); assumption).
    assert (Hspe : strict_prefix (Path e) path = true).
    { apply strict_prefix_iff. exists ("/" ++ sub).
      split; [now rewrite <- append_assoc | discriminate]. }
    pose proof (naive_longest_spec pset path None) as Hspec.
    destruct (naive_longest pset path None) as [r|].
    + destruct Hspec as [[Hin | Hin] [Hspr [_ Hlong]]];
        [discriminate | discriminate |].
      rewrite Hn. f_equal. symmetry.
      apply (predecessor_longest pset path i Hsorted Hhi e r); auto.
      apply Hlong; [eapply nth_error_In; eassumption | assumption].
    + destruct Hspec as [_ Hnone]; [discriminate |].
      rewrite Hnone in Hspe; [discriminate | eapply nth_error_In; eassumption].
  - (* general scan *)
    exists (bestMatchConfig st), (subpath st). split; [exact Hf |].
    rewrite naive_exact_None
      by (apply (no_exact_anywhere pset path i); assumption).
    pose proof (naive_longest_spec pset path None) as Hspec.
    destruct (naive_longest pset path None) as [r|].
    + destruct Hspec as [[Hin | Hin] [Hspr [_ Hlong]]];
        [discriminate | discriminate |].
      destruct (In_nth_error _ _ Hin) as [k Hk].
      pose proof (strict_prefix_below pset path i Hhi k r Hk Hspr) as Hki.
      apply strict_prefix_iff in Hspr. destruct Hspr as [rr [Hpr Hrr]].
      pose proof (Hmax k r rr Hki Hk Hpr (Hnonempty r Hin) Hrr) as Hbound.
      destruct Hsel as [[_ [_ Hl]] | [m [e [Hb [Hm [Hnm [Hpe [Hne' [Hsn Hl]]]]]]]]].
      * exfalso. apply (f_equal String.length) in Hpr.
        rewrite length_append in Hpr.
        specialize (Hnonempty r Hin). destruct (Path r); [congruence | simpl in Hpr; lia].
      * rewrite Hb. simpl. rewrite Hnm. f_equal.
        assert (Hse : strict_prefix (Path e) path = true)
          by (apply strict_prefix_iff; eauto).
        pose proof (Hlong e (nth_error_In _ _ Hnm) Hse) as Hle.
        assert (Hlen : String.length (Path e) = String.length (Path r)).
        { pose proof (f_equal String.length Hpr) as H1.
          pose proof (f_equal String.length Hpe) as H2.
          rewrite length_append in H1, H2. lia. }
        assert (Hpaths : Path e = Path r)
          by (apply (prefix_same_length _ _ (subpath st) rr); congruence).
        assert (m = k)
          by (apply (strictly_ascending_inj pset m k e r); assumption).
        congruence.
    + destruct Hspec as [_ Hnone]; [discriminate |].
      destruct Hsel as [[Hb _] | [m [e [Hb [Hm [Hnm [Hpe [Hne' [Hsn Hl]]]]]]]]].
      * now rewrite Hb.
      * exfalso.
        assert (Hse : strict_prefix (Path e) path = true)
          by (apply strict_prefix_iff; eauto).
        rewrite Hnone in Hse; [discriminate | eapply nth_error_In; eassumption].
Qed.

(** ** [sort.Sort] *)

Section SortSort.

Local Open Scope list_scope.

Lemma all_le_snoc (l : PathConfigSet) (x : PathConfig) :
  all_le (l ++ [x]) <-> all_le l /\ Forall (fun y => le_path y x) l.
Proof.
  induction l as [|a t IH]; simpl.
  - split; [intros _; split; [exact I | constructor] | intros _; split; [constructor | exact I]].
  - rewrite IH, Forall_app. split.
    + intros [[H1 H2] [H3 H4]]. inversion H2; subst.
      repeat split; try assumption. constructor; assumption.
    + intros [[H1 H2] H3]. inversion H3; subst.
      repeat split; try assumption. constructor; [assumption | constructor].
Qed.

Lemma all_le_ascending (l : PathConfigSet) : all_le l -> ascending l = true.
Proof.
  induction l as [|a [|b t] IH]; try reflexivity.
  intros [Ha Ht].
  change (ascending (a :: b :: t)) with ((Path a <=? Path b) && ascending (b :: t)).
  apply andb_true_iff. split; [inversion Ha; assumption | now apply IH].
Qed.

Lemma ascending_all_le (l : PathConfigSet) : ascending l = true -> all_le l.
Proof.
  induction l as [|a t IH]; intros H; simpl; [exact I |].
  split; [| apply IH; eapply ascending_tail; eassumption].
  apply Forall_forall. intros b Hb. now apply (ascending_head a t).
Qed.

Lemma update_middle {A} (l1 l2 : list A) (a b : A) :
  update (l1 ++ a :: l2) (List.length l1) b = l1 ++ b :: l2.
Proof. induction l1 as [|c l1 IH]; simpl; [reflexivity | now rewrite IH]. Qed.

Lemma index_middle {A} (l1 l2 : list A) (a : A) :
  index (l1 ++ a :: l2) (List.length l1) = Ok a.
Proof.
  apply index_Some. rewrite nth_error_app2 by lia.
  now rewrite Nat.sub_diag.
Qed.

Lemma index_middle_next {A} (l1 l2 : list A) (a b : A) :
  index (l1 ++ a :: b :: l2) (S (List.length l1)) = Ok b.
Proof.
  apply index_Some. rewrite nth_error_app2 by lia.
  replace (S (List.length l1) - List.length l1) with 1 by lia. reflexivity.
Qed.

(** [Less] and [Swap] on two neighbours. *)
Lemma Less_neighbours (l1 l2 : PathConfigSet) (y x : PathConfig) :
  Less (l1 ++ y :: x :: l2) (S (List.length l1)) (List.length l1)
  = Ok (Path x <? Path y)%string.
Proof.
  unfold Less. now rewrite index_middle_next, index_middle.
Qed.

Lemma Swap_neighbours (l1 l2 : PathConfigSet) (y x : PathConfig) :
  Swap (l1 ++ y :: x :: l2) (S (List.length l1)) (List.length l1)
  = Ok (l1 ++ x :: y :: l2).
Proof.
  unfold Swap. rewrite index_middle_next, index_middle. cbn [bind]. f_equal.
  replace (l1 ++ y :: x :: l2) with ((l1 ++ [y]) ++ x :: l2)
    by (now rewrite <- app_assoc).
  replace (S (List.length l1)) with (List.length (l1 ++ [y]))
    by (rewrite length_app; simpl; lia).
  rewrite update_middle, <- app_assoc. simpl.
  apply update_middle.
Qed.

(** The inner loop moves the element at the end of a sorted prefix to
    its place. *)
Lemma sift_spec (l1 : PathConfigSet) :
  forall (x : PathConfig) (l2 : PathConfigSet),
  exists l1',
    sift (l1 ++ x :: l2) (List.length l1) = Ok (l1' ++ l2)
    /\ Permutation (l1 ++ [x]) l1'
    /\ (all_le l1 -> all_le l1').
Proof.
  induction l1 as [|y l1 IH] using rev_ind; intros x l2.
  - exists [x]. simpl. repeat split; auto.
  - rewrite <- app_assoc. simpl ((l1 ++ [y]) ++ [x]).
    rewrite length_app. simpl List.length. rewrite Nat.add_1_r.
    cbn [sift app]. rewrite Less_neighbours. cbn [bind].
    destruct (Path x <? Path y)%string eqn:Hlt.
    + rewrite Swap_neighbours. cbn [bind].
      destruct (IH x (y :: l2)) as [l1' [Hs [Hp Ha]]].
      exists (l1' ++ [y]). split; [| split].
      * rewrite Hs. now rewrite <- app_assoc.
      * rewrite <- Hp. rewrite <- !app_assoc. apply Permutation_app_head.
        simpl. apply perm_swap.
      * intros H. apply all_le_snoc in H. destruct H as [H1 H2].
        apply all_le_snoc. split; [auto |].
        rewrite <- Hp. apply Forall_app. split; [assumption |].
        constructor; [| constructor]. unfold le_path.
        apply leb_cases. now left.
    + exists ((l1 ++ [y]) ++ [x]). split; [| split].
      * now rewrite <- !app_assoc.
      * reflexivity.
      * intros H. apply all_le_snoc. split; [assumption |].
        assert (Hyx : le_path y x).
        { unfold le_path. rewrite ltb_negb_leb in Hlt.
          now apply negb_false_iff in Hlt. }
        apply all_le_snoc in H. destruct H as [_ H].
        apply Forall_app. split; [| constructor; [assumption | constructor]].
        eapply Forall_impl; [| exact H].
        intros a Ha. unfold le_path in *. eapply leb_trans; eassumption.
Qed.

Lemma insertionSort_loop_spec (l2 : PathConfigSet) :
  forall l1 : PathConfigSet,
    all_le l1 ->
    exists out,
      insertionSort_loop (l1 ++ l2) (List.length l1) (List.length l2) = Ok out
      /\ Permutation (l1 ++ l2) out /\ all_le out.
Proof.
  induction l2 as [|x l2 IH]; intros l1 Hl1.
  - exists l1. rewrite app_nil_r. simpl. auto.
  - cbn [List.length insertionSort_loop].
    destruct (sift_spec l1 x l2) as [l1' [Hs [Hp Ha]]].
    rewrite Hs. cbn [bind].
    destruct (IH l1' (Ha Hl1)) as [out [Ho [Hpo Hso]]].
    assert (Hlen : List.length l1' = S (List.length l1)).
    { rewrite <- (Permutation_length Hp), length_app. simpl. lia. }
    rewrite Hlen in Ho. exists out. split; [exact Ho |]. split; [| exact Hso].
    rewrite <- Hpo, <- Hp, <- app_assoc. reflexivity.
Qed.

(** [sort.Sort] returns, without a panic, an ascending permutation of
    its argument. *)
Lemma sort_Sort_spec (pset : PathConfigSet) :
  exists out, sort_Sort pset = Ok out
              /\ Permutation pset out /\ ascending out = true.
Proof.
  unfold sort_Sort, Len. destruct pset as [|a t].
  - exists []. simpl. auto.
  - destruct (insertionSort_loop_spec t [a]) as [out [Ho [Hp Hs]]].
    + simpl. split; [constructor | exact I].
    + simpl in Ho. simpl. rewrite Nat.sub_0_r.
      exists out. split; [exact Ho |]. split; [exact Hp |].
      now apply all_le_ascending.
Qed.

Lemma distinct_paths_NoDup (l : PathConfigSet) :
  distinct_paths l = true <-> NoDup (map Path l).
Proof.
  induction l as [|a t IH]; simpl.
  - split; [constructor | reflexivity].
  - rewrite andb_true_iff, negb_true_iff, IH. split.
    + intros [Hn Hd]. constructor; [| assumption].
      intros Hin. apply in_map_iff in Hin. destruct Hin as [b [Hb Hin]].
      assert (existsb (fun b0 => Path b0 =? Path a) t = true); [| congruence].
      apply existsb_exists. exists b. split; [assumption | now apply String.eqb_eq].
    + intros H. inversion H; subst. split; [| assumption].
      destruct (existsb (fun b => Path b =? Path a) t) eqn:E; [| reflexivity].
      apply existsb_exists in E. destruct E as [b [Hin Hb]].
      apply String.eqb_eq in Hb. exfalso. apply H2.
      rewrite <- Hb. now apply in_map.
Qed.

Lemma distinct_paths_Permutation (l l' : PathConfigSet) :
  Permutation l l' -> distinct_paths l = true -> distinct_paths l' = true.
Proof.
  intros Hp. rewrite !distinct_paths_NoDup.
  apply Permutation_NoDup. now apply Permutation_map.
Qed.

Lemma ascending_distinct_strict (l : PathConfigSet) :
  ascending l = true -> distinct_paths l = true -> strictly_ascending l = true.
Proof.
  induction l as [|a [|b t] IH]; try reflexivity.
  intros Ha Hd.
  change (ascending (a :: b :: t)) with ((Path a <=? Path b) && ascending (b :: t)) in Ha.
  change (strictly_ascending (a :: b :: t))
    with ((Path a <? Path b) && strictly_ascending (b :: t)).
  apply andb_true_iff in Ha. destruct Ha as [Hab Ha].
  apply andb_true_iff. split.
  - apply leb_cases in Hab. destruct Hab as [H | H]; [assumption |].
    exfalso. simpl in Hd. rewrite H, String.eqb_refl in Hd. discriminate.
  - apply IH; [assumption |]. simpl in Hd. apply andb_true_iff in Hd. tauto.
Qed.

(** With pairwise distinct paths a table has one ascending arrangement:
    whatever algorithm [sort.Sort] runs, the table it leaves is the
    same. *)
Lemma sorted_permutation_unique (l l' : PathConfigSet) :
  Permutation l l' -> distinct_paths l = true ->
  ascending l = true -> ascending l' = true -> l = l'.
Proof.
  revert l'; induction l as [|a t IH]; intros l' Hp Hd Hs Hs'.
  - apply Permutation_nil in Hp. now subst.
  - destruct l' as [|a' t']; [apply Permutation_sym, Permutation_nil in Hp; discriminate |].
    assert (Haa : a = a').
    { apply (distinct_paths_inj (a :: t)); try assumption; [now left | |].
      - apply (Permutation_in a' (Permutation_sym Hp)). now left.
      - apply String.leb_antisym.
        + assert (Hin : In a' (a :: t))
            by (apply (Permutation_in a' (Permutation_sym Hp)); now left).
          destruct Hin as [-> | Hin]; [apply leb_refl |].
          now apply (ascending_head a t).
        + assert (Hin : In a (a' :: t')) by (apply (Permutation_in a Hp); now left).
          destruct Hin as [-> | Hin]; [apply leb_refl |].
          now apply (ascending_head a' t'). }
    subst a'. f_equal. apply IH.
    + eapply Permutation_cons_inv; eassumption.
    + simpl in Hd. apply andb_true_iff in Hd. tauto.
    + eapply ascending_tail; eassumption.
    + eapply ascending_tail; eassumption.
Qed.

(** For entries with pairwise distinct paths [sort.Sort] returns a
    table that is strictly ascending by path under the byte-wise
    order and holds the same
    entries; from any permutation of the entries it returns that same
    table, so [find] answers every query alike.  The table does not
    depend on the sorting algorithm: it is the only ascending
    arrangement of the entries. *)
Lemma sort_Sort_canonical (l l' : PathConfigSet) :
  distinct_paths l = true -> Permutation l l' ->
  exists t,
    sort_Sort l = Ok t
    /\ strictly_ascending t = true
    /\ Permutation l t
    /\ sort_Sort l' = Ok t
    /\ (forall t' q, sort_Sort l' = Ok t' -> find t' q = find t q)
    /\ (forall t', Permutation l' t' -> ascending t' = true -> t' = t).
Proof.
  intros Hd Hp.
  destruct (sort_Sort_spec l) as [t [Ht [Hpt Hat]]].
  destruct (sort_Sort_spec l') as [t' [Ht' [Hpt' Hat']]].
  assert (Hdt : distinct_paths t = true)
    by (eapply distinct_paths_Permutation; eassumption).
  assert (Hunique : forall u, Permutation l' u -> ascending u = true -> u = t).
  { intros u Hu Hau. symmetry. apply sorted_permutation_unique; try assumption.
    rewrite <- Hpt, Hp. exact Hu. }
  assert (Heq : t' = t) by (apply Hunique; assumption).
  subst t'. exists t. repeat split; try assumption.
  - now apply ascending_distinct_strict.
  - intros t' q Hq. congruence.
Qed.

End SortSort.

(** ** [NewVanityHandler] *)

Lemma HasSuffix_iff (s suf : string) :
  strings.HasSuffix s suf = true <-> exists q, s = q ++ suf.
Proof.
  unfold strings.HasSuffix. rewrite andb_true_iff, Nat.leb_le, String.eqb_eq.
  split.
  - intros [Hl He].
    exists (substring 0 (String.length s - String.length suf) s).
    pose proof (substring_zero_split (String.length s - String.length suf) s) as Hsp.
    replace (String.length s - (String.length s - String.length suf))
      with (String.length suf) in Hsp by lia.
    rewrite He in Hsp. apply Hsp. lia.
  - intros [q ->]. rewrite length_append. split; [lia |].
    replace (String.length q + String.length suf - String.length suf)
      with (String.length q) by lia.
    rewrite substring_skip_app. apply substring_all.
Qed.

Lemma TrimSuffix_app (q suf : string) : strings.TrimSuffix (q ++ suf) suf = q.
Proof.
  unfold strings.TrimSuffix.
  assert (H : strings.HasSuffix (q ++ suf) suf = true) by (apply HasSuffix_iff; eauto).
  rewrite H, length_append.
  replace (String.length q + String.length suf - String.length suf)
    with (String.length q) by lia.
  apply substring_zero_app.
Qed.

Lemma TrimSuffix_normalized (k : string) : normalized k (strings.TrimSuffix k "/").
Proof.
  destruct (strings.HasSuffix k "/") eqn:H.
  - left. apply HasSuffix_iff in H. destruct H as [q ->].
    now rewrite TrimSuffix_app.
  - right. unfold strings.TrimSuffix. rewrite H. split; [reflexivity |].
    intros q ->.
    assert (strings.HasSuffix (q ++ "/") "/" = true) by (apply HasSuffix_iff; eauto).
    congruence.
Qed.

Lemma unknown_vcs_iff (v : string) : unknown_vcs v = false <-> known_vcs v.
Proof.
  unfold unknown_vcs, known_vcs.
  destruct (v =? "bzr") eqn:H1; [apply String.eqb_eq in H1; simpl; tauto |].
  destruct (v =? "git") eqn:H2; [apply String.eqb_eq in H2; simpl; tauto |].
  destruct (v =? "hg") eqn:H3; [apply String.eqb_eq in H3; simpl; tauto |].
  destruct (v =? "svn") eqn:H4; [apply String.eqb_eq in H4; simpl; tauto |].
  apply String.eqb_neq in H1, H2, H3, H4. simpl.
  split; [discriminate | tauto].
Qed.

(** The two ways out of the loop body. *)
Lemma path_entry_cases (path : string) (e : VanityPath) :
  (path_entry path e = inl (InvalidVCSError path (vp_Repo e))
   /\ (states_unknown_vcs e \/ vcs_uninferable e))
  \/ (exists pc, path_entry path e = inr pc
                 /\ Path pc = strings.TrimSuffix path "/"
                 /\ Repo pc = vp_Repo e
                 /\ known_vcs (VCS pc)
                 /\ ~ states_unknown_vcs e /\ ~ vcs_uninferable e).
Proof.
  unfold path_entry, states_unknown_vcs, vcs_uninferable, NewInvalidVCSError.
  destruct (vp_VCS e =? "") eqn:Hv; cbn [negb].
  - apply String.eqb_eq in Hv.
    destruct (strings.HasPrefix (vp_Repo e) "https://github.com/") eqn:Hg.
    + right. eexists. split; [reflexivity |].
      cbn [Path Repo VCS].
      assert (Hr : exists r, vp_Repo e = github_prefix ++ r)
        by (now apply HasPrefix_iff).
      repeat split.
      * destruct (negb (vp_Display e =? "")); reflexivity.
      * destruct (negb (vp_Display e =? "")); reflexivity.
      * right; left; reflexivity.
      * tauto.
      * tauto.
    + left. split; [reflexivity |]. right. split; [assumption |].
      intros Hr. apply HasPrefix_iff in Hr. unfold github_prefix in Hr. congruence.
  - apply String.eqb_neq in Hv.
    destruct (unknown_vcs (vp_VCS e)) eqn:Hu.
    + left. split; [reflexivity |]. left. split; [assumption |].
      intros Hk. apply unknown_vcs_iff in Hk. congruence.
    + right. apply unknown_vcs_iff in Hu. eexists. split; [reflexivity |].
      repeat split.
      * destruct (negb (vp_Display e =? ""));
          [| destruct (strings.HasPrefix (vp_Repo e) "https://github.com/");
             [| destruct (strings.HasPrefix (vp_Repo e) "https://bitbucket.org")]];
          reflexivity.
      * destruct (negb (vp_Display e =? ""));
          [| destruct (strings.HasPrefix (vp_Repo e) "https://github.com/");
             [| destruct (strings.HasPrefix (vp_Repo e) "https://bitbucket.org")]];
          reflexivity.
      * destruct (negb (vp_Display e =? ""));
          [| destruct (strings.HasPrefix (vp_Repo e) "https://github.com/");
             [| destruct (strings.HasPrefix (vp_Repo e) "https://bitbucket.org")]];
          exact Hu.
      * tauto.
      * tauto.
Qed.

Section RangePaths.

Local Open Scope list_scope.

(** The loop stops at the first binding it rejects; otherwise it appends
    one entry per binding, in the order of the iteration. *)
Lemma range_Paths_spec (bs : list (string * VanityPath)) :
  forall acc,
    match range_Paths bs acc with
    | inl err =>
        exists k e, In (k, e) bs /\ err = InvalidVCSError k (vp_Repo e)
                    /\ (states_unknown_vcs e \/ vcs_uninferable e)
    | inr ps =>
        (forall k e, In (k, e) bs ->
                     ~ states_unknown_vcs e /\ ~ vcs_uninferable e)
        /\ exists es,
             ps = acc ++ es
             /\ Forall2 (fun kv pc =>
                           Path pc = strings.TrimSuffix (fst kv) "/"
                           /\ Repo pc = vp_Repo (snd kv)
                           /\ known_vcs (VCS pc)) bs es
    end.
Proof.
  induction bs as [|[k e] bs IH]; intros acc; simpl.
  - split; [intros k e [] |]. exists []. rewrite app_nil_r. split; [reflexivity | constructor].
  - destruct (path_entry_cases k e) as [[He Hbad] | [pc [He [Hp [Hr [Hv [Hn1 Hn2]]]]]]];
      rewrite He.
    + exists k, e. auto.
    + specialize (IH (acc ++ [pc])).
      destruct (range_Paths bs (acc ++ [pc])) as [err | ps].
      * destruct IH as [k' [e' [Hin H]]]. exists k', e'. auto.
      * destruct IH as [Hok [es [Hps Hall]]]. split.
        -- intros k' e' [Heq | Hin]; [injection Heq as <- <-; auto | eauto].
        -- exists (pc :: es). split; [now rewrite Hps, <- app_assoc |].
           constructor; [simpl; auto | assumption].
Qed.

End RangePaths.

Section HandlerProperties.

Variable yaml_Unmarshal : string -> option VanityConfig.
Variable config : string.

(** The four ways out of [NewVanityHandler]. *)
Lemma NewVanityHandler_cases :
  (yaml_Unmarshal config = None
   /\ NewVanityHandler yaml_Unmarshal config = Ok (None, Some ErrInvalidConfig))
  \/ exists parsed,
       yaml_Unmarshal config = Some parsed
       /\ (((exists a, cfg_CacheAge parsed = Some a /\ (a < 0)%Z)
            /\ NewVanityHandler yaml_Unmarshal config
               = Ok (None, Some ErrCacheMaxAgeNegative))
           \/ ((0 <= effective_age parsed)%Z
               /\ exists k e,
                    In (k, e) (cfg_Paths parsed)
                    /\ (states_unknown_vcs e \/ vcs_uninferable e)
                    /\ NewVanityHandler yaml_Unmarshal config
                       = Ok (None, Some (InvalidVCSError k (vp_Repo e))))
           \/ ((0 <= effective_age parsed)%Z
               /\ (forall k e, In (k, e) (cfg_Paths parsed) ->
                               ~ states_unknown_vcs e /\ ~ vcs_uninferable e)
               /\ exists es sorted,
                    Forall2 (fun kv pc =>
                               Path pc = strings.TrimSuffix (fst kv) "/"
                               /\ Repo pc = vp_Repo (snd kv)
                               /\ known_vcs (VCS pc)) (cfg_Paths parsed) es
                    /\ Permutation es sorted
                    /\ ascending sorted = true
                    /\ NewVanityHandler yaml_Unmarshal config
                       = Ok (Some {| host := cfg_Host parsed;
                                     paths := sorted;
                                     cachectrl := "public, max-age="
                                                    ++ fmt_d (effective_age parsed) |},
                             None))).
Proof.
  unfold NewVanityHandler.
  destruct (yaml_Unmarshal config) as [parsed|]; [| left; auto].
  right. exists parsed. split; [reflexivity |].
  assert (Hage :
    ((exists a, cfg_CacheAge parsed = Some a /\ (a < 0)%Z)
     /\ match cfg_CacheAge parsed with
        | Some a => if (a <? 0)%Z then inl ErrCacheMaxAgeNegative else inr a
        | None => inr 86400%Z
        end = inl ErrCacheMaxAgeNegative)
    \/ ((0 <= effective_age parsed)%Z
        /\ match cfg_CacheAge parsed with
           | Some a => if (a <? 0)%Z then inl ErrCacheMaxAgeNegative else inr a
           | None => inr 86400%Z
           end = inr (effective_age parsed))).
  { unfold effective_age. destruct (cfg_CacheAge parsed) as [a|].
    - destruct (a <? 0)%Z eqn:Hneg.
      + left. apply Z.ltb_lt in Hneg. eauto.
      + right. apply Z.ltb_ge in Hneg. auto.
    - right. split; [lia | reflexivity]. }
  destruct Hage as [[Hneg ->] | [Hpos ->]]; [left; auto |].
  right.
  pose proof (range_Paths_spec (cfg_Paths parsed) []) as Hrange.
  destruct (range_Paths (cfg_Paths parsed) []) as [err | ps].
  - left. split; [assumption |].
    destruct Hrange as [k [e [Hin [-> Hbad]]]]. exists k, e. auto.
  - right. split; [assumption |].
    destruct Hrange as [Hok [es [Hps Hall]]]. split; [assumption |].
    simpl in Hps. subst ps.
    destruct (sort_Sort_spec es) as [sorted [Hsort [Hperm Hasc]]].
    rewrite Hsort. cbn [bind]. exists es, sorted. auto.
Qed.

(** C9. [NewVanityHandler] returns, without a panic, either an error
    and no handler or a handler and no error.  It returns an error
    exactly when the configuration is rejected: it is malformed, or
    [cache_max_age] is negative, or an entry states a version-control
    kind outside bzr, git, hg, svn, or an entry states none and its
    repo does not start with https://github.com/.  Every entry of the
    table of a handler it returns carries one of the four kinds. *)
Theorem NewVanityHandler_rejects_iff :
  exists h err,
    NewVanityHandler yaml_Unmarshal config = Ok (h, err)
    /\ ((exists e, err = Some e) <-> rejected yaml_Unmarshal config)
    /\ ((exists e, err = Some e) <-> h = None)
    /\ (forall hd, h = Some hd ->
                   Forall (fun pc => known_vcs (VCS pc)) (paths hd)).
Proof.
  destruct NewVanityHandler_cases
    as [[Hy Hr] | [parsed [Hy [[[a [Ha Hneg]] Hr]
                              | [[Hpos [k [e [Hin [Hbad Hr]]]]]
                                | [Hpos [Hok [es [sorted [Hall [Hperm [Hasc Hr]]]]]]]]]]]];
    rewrite Hr.
  - exists None, (Some ErrInvalidConfig). split; [reflexivity |].
    split; [split; [intros _; left; assumption | eauto] |].
    split; [split; eauto | discriminate].
  - exists None, (Some ErrCacheMaxAgeNegative). split; [reflexivity |].
    split; [split; [intros _ | eauto] |].
    + right. exists parsed. split; [assumption |]. left. eauto.
    + split; [split; eauto | discriminate].
  - exists None, (Some (InvalidVCSError k (vp_Repo e))). split; [reflexivity |].
    split; [split; [intros _ | eauto] |].
    + right. exists parsed. split; [assumption |]. right. eauto.
    + split; [split; eauto | discriminate].
  - eexists _, None. split; [reflexivity |].
    split; [split |].
    + intros [e He]. discriminate.
    + intros [Hnone | [parsed' [Hy' [[a [Ha Hneg]] | [k [e [Hin Hbad]]]]]]];
        exfalso.
      * congruence.
      * assert (parsed' = parsed) by congruence. subst parsed'.
        unfold effective_age in Hpos. rewrite Ha in Hpos. lia.
      * assert (parsed' = parsed) by congruence. subst parsed'.
        destruct (Hok k e Hin). tauto.
    + split; [split; [intros [e He] |]; discriminate |].
      intros hd Hhd. injection Hhd as <-. cbn [paths].
      rewrite <- Hperm. clear -Hall.
      induction Hall as [|kv pc bs es' [_ [_ Hv]] _ IH]; constructor; assumption.
Qed.

(** C8 (amended). Every configured key is normalized by removing one
    trailing slash when it has one and is left unchanged otherwise,
    with no exception for the root: the table of a returned handler
    holds, for each configured key, one entry whose path is the key so
    normalized, and the entry built from the key [/] has the empty
    path. *)
Theorem NewVanityHandler_paths (hd : VanityHandler) (err : option error) :
  NewVanityHandler yaml_Unmarshal config = Ok (Some hd, err) ->
  exists parsed es,
    yaml_Unmarshal config = Some parsed
    /\ Permutation es (paths hd)
    /\ Forall2 (fun kv pc =>
                  Path pc = strings.TrimSuffix (fst kv) "/"
                  /\ normalized (fst kv) (Path pc)
                  /\ (fst kv = "/" -> Path pc = ""))
               (cfg_Paths parsed) es.
Proof.
  intros H.
  destruct NewVanityHandler_cases
    as [[Hy Hr] | [parsed [Hy [[_ Hr] | [[_ [k [e [_ [_ Hr]]]]]
                              | [_ [_ [es [sorted [Hall [Hperm [_ Hr]]]]]]]]]]]];
    rewrite Hr in H; try discriminate.
  injection H as <- _. exists parsed, es. cbn [paths].
  split; [assumption |]. split; [assumption |].
  clear -Hall.
  induction Hall as [|kv pc bs es' [Hp _] _ IH]; constructor; [| assumption].
  split; [assumption |]. split.
  - rewrite Hp. apply TrimSuffix_normalized.
  - intros Hk. rewrite Hp, Hk. reflexivity.
Qed.

(** C10. A negative [cache_max_age], and nothing else, makes
    [NewVanityHandler] return [ErrCacheMaxAgeNegative] (whose message
    reads: must be positive); an age of 0, like any other non-negative
    age, is accepted.  The cache-control string of a returned handler is
    [public, max-age=N] where N is the configured age, or 86400 when
    [cache_max_age] is absent. *)
Theorem NewVanityHandler_cache_age (parsed : VanityConfig) :
  yaml_Unmarshal config = Some parsed ->
  ((exists a, cfg_CacheAge parsed = Some a /\ (a < 0)%Z) <->
   exists h, NewVanityHandler yaml_Unmarshal config
             = Ok (h, Some ErrCacheMaxAgeNegative))
  /\ ((0 <= effective_age parsed)%Z ->
      (forall k e, In (k, e) (cfg_Paths parsed) ->
                   ~ states_unknown_vcs e /\ ~ vcs_uninferable e) ->
      exists hd, NewVanityHandler yaml_Unmarshal config = Ok (Some hd, None))
  /\ (forall hd err,
         NewVanityHandler yaml_Unmarshal config = Ok (Some hd, err) ->
         (0 <= effective_age parsed)%Z
         /\ cachectrl hd = "public, max-age=" ++ fmt_d (effective_age parsed)
         /\ (cfg_CacheAge parsed = None ->
             cachectrl hd = "public, max-age=86400")
         /\ (cfg_CacheAge parsed = Some 0%Z ->
             cachectrl hd = "public, max-age=0"))
  /\ Error ErrCacheMaxAgeNegative = "cache-max-age must be positive".
Proof.
  intros Hy.
  destruct NewVanityHandler_cases
    as [[Hy' Hr] | [parsed' [Hy' [[[a [Ha Hneg]] Hr]
                              | [[Hpos [k [e [Hin [Hbad Hr]]]]]
                                | [Hpos [Hok [es [sorted [Hall [Hperm [Hasc Hr]]]]]]]]]]]];
    [congruence | | |];
    assert (parsed' = parsed) by congruence; subst parsed'; rewrite Hr;
    (split; [| split; [| split; [| reflexivity]]]).
  - split; eauto.
  - intros Hpos. unfold effective_age in Hpos. rewrite Ha in Hpos. lia.
  - intros hd err H. discriminate.
  - split; [intros [a [Ha Hneg]] | intros [h Hh]; discriminate].
    unfold effective_age in Hpos. rewrite Ha in Hpos. lia.
  - intros _ Hok. destruct (Hok k e Hin). tauto.
  - intros hd err H. discriminate.
  - split; [intros [a [Ha Hneg]] | intros [h Hh]; discriminate].
    unfold effective_age in Hpos. rewrite Ha in Hpos. lia.
  - intros _ _. eauto.
  - intros hd err H. injection H as <- _. cbn [cachectrl].
    split; [assumption |]. split; [reflexivity |].
    unfold effective_age. split; intros ->; reflexivity.
Qed.

End HandlerProperties.

(** ** The examples of the specification, evaluated *)

Section Examples.

Local Open Scope list_scope.

(** C1. With [/a] and [/a/b] configured, [/a/b/c] resolves to the entry
    of [/a/b] with subpath [c] (first part).  The general statement
    fails on the code: as soon as another entry sorts between the
    longest prefix and the query, here [/a/b-x], the general scan
    answers, and it returns the right entry with the subpath [/c], the
    separating slash still in front (second and third part, the third on
    the table [NewVanityHandler] builds from these keys). *)
Theorem find_scan_keeps_slash :
  (forall X Y : PathConfig,
      find [with_path "/a" X; with_path "/a/b" Y] "/a/b/c"%string
      = Ok (Some 1, "c"%string))
  /\ (forall X Y Z : PathConfig,
         find [with_path "/a" X; with_path "/a/b" Y; with_path "/a/b-x" Z]
              "/a/b/c"%string
         = Ok (Some 1, "/c"%string))
  /\ NewVanityHandler
       (parses_to (example_config ["/a/b-x"; "/a/b/"; "/a"]%string None))
       ""%string
     = Ok (Some (example_handler ["/a"; "/a/b"; "/a/b-x"]%string "86400"), None)
  /\ find (paths (example_handler ["/a"; "/a/b"; "/a/b-x"]%string "86400"))
          "/a/b/c"%string
     = Ok (Some 1, "/c"%string).
Proof. repeat split. Qed.

(** C2, counterexample: an entry with the empty path (the root, as
    [NewVanityHandler] normalizes it) is a strict prefix of [/def], and
    the naive scan selects it; [find] returns no match. *)
Lemma find_skips_empty_path :
  strictly_ascending [route ""; route "/abc"]%string = true
  /\ find [route ""; route "/abc"]%string "/def"%string = Ok (None, ""%string)
  /\ naive_Resolve [route ""; route "/abc"]%string "/def"%string
     = Some (route ""%string)
  /\ ~ (exists pc sub,
           find [route ""; route "/abc"]%string "/def"%string = Ok (pc, sub)
           /\ deref [route ""; route "/abc"]%string pc
              = naive_Resolve [route ""; route "/abc"]%string "/def"%string).
Proof.
  repeat split.
  intros [pc [sub [Hf Hd]]].
  change (find [route ""; route "/abc"]%string "/def"%string)
    with (@Ok (option nat * string) (None, ""%string)) in Hf.
  injection Hf as <- <-. discriminate Hd.
Qed.

Lemma find_refines_naive_witness :
  exists pc sub,
    find [route "/a"; route "/a/b"; route "/a/b/c"]%string "/a/b/c/d/e"%string
    = Ok (pc, sub)
    /\ deref [route "/a"; route "/a/b"; route "/a/b/c"]%string pc
       = naive_Resolve [route "/a"; route "/a/b"; route "/a/b/c"]%string
                       "/a/b/c/d/e"%string.
Proof.
  apply find_refines_naive; reflexivity.
Defined.

(** C4, counterexample: the table and the query of the comment in
    [find]; the root matches [/x] with subpath [x], and [/x] is not the
    root followed by a slash and [x]. *)
Lemma find_scan_no_separator :
  ascending [route "/"; route "/abc/"; route "/abc/def/"; route "/xyz/"]%string
  = true
  /\ find [route "/"; route "/abc/"; route "/abc/def/"; route "/xyz/"]%string
          "/x"%string
     = Ok (Some 0, "x"%string)
  /\ nth_error [route "/"; route "/abc/"; route "/abc/def/"; route "/xyz/"]%string 0
     = Some (route "/"%string)
  /\ ~ (("x" = "" /\ Path (route "/") = "/x")
        \/ "/x" = Path (route "/") ++ "/" ++ "x")%string.
Proof.
  repeat split. intros [[H _] | H]; discriminate.
Qed.

Lemma find_subpath_witness :
  exists e,
    nth_error [route "/a"; route "/a/b"]%string 1 = Some e
    /\ ((("c" = "" /\ Path e = "/a/b/c")
         \/ ("/a/b/c" = Path e ++ "/" ++ "c"
             /\ forall k e', 1 < k ->
                             nth_error [route "/a"; route "/a/b"]%list k = Some e' ->
                             ("/a/b/c" <=? Path e') = true)
         \/ (Path e <> ""
             /\ exists rest,
                  "/a/b/c" = Path e ++ rest /\ rest <> ""
                  /\ ("c" = rest \/ rest = "/" ++ "c")
                  /\ (strings.HasPrefix rest "/" = false -> "c" = rest)
                  /\ (strings.HasPrefix rest "/" = true ->
                      exists k e',
                        1 < k
                        /\ nth_error [route "/a"; route "/a/b"]%list k = Some e'
                        /\ (Path e' <? "/a/b/c") = true)))%string).
Proof.
  apply (find_subpath [route "/a"; route "/a/b"]%string "/a/b/c"%string 1 "c"%string).
  - reflexivity.
  - reflexivity.
Defined.

Lemma find_exact_witness :
  exists i pc,
    find [route "/a"; route "/a/b"]%string "/a"%string = Ok (Some i, ""%string)
    /\ nth_error [route "/a"; route "/a/b"]%string i = Some pc
    /\ Path pc = "/a"%string
    /\ (distinct_paths [route "/a"; route "/a/b"]%string = true
        -> pc = route "/a"%string).
Proof.
  apply (find_exact [route "/a"; route "/a/b"]%string "/a"%string (route "/a"%string)).
  - reflexivity.
  - simpl. auto.
  - reflexivity.
Defined.

(** C8, counterexample: the entry built from the configured key [/] has
    the empty path, not [/]. *)
Lemma root_key_not_kept :
  NewVanityHandler (parses_to (example_config ["/"]%string None)) ""%string
  = Ok (Some (example_handler [""]%string "86400"), None)
  /\ map Path (paths (example_handler [""]%string "86400")) = [""%string]
  /\ map Path (paths (example_handler [""]%string "86400")) <> ["/"%string].
Proof. repeat split. discriminate. Qed.

Lemma NewVanityHandler_paths_witness :
  exists parsed es,
    parses_to (example_config ["/xyz"; "/"; "/abc/"]%string None) ""%string
    = Some parsed
    /\ Permutation es (paths (example_handler [""; "/abc"; "/xyz"]%string "86400"))
    /\ Forall2 (fun kv pc =>
                  Path pc = strings.TrimSuffix (fst kv) "/"
                  /\ normalized (fst kv) (Path pc)
                  /\ (fst kv = "/"%string -> Path pc = ""%string))
               (cfg_Paths parsed) es.
Proof.
  apply (NewVanityHandler_paths
           (parses_to (example_config ["/xyz"; "/"; "/abc/"]%string None))
           ""%string
           (example_handler [""; "/abc"; "/xyz"]%string "86400") None).
  reflexivity.
Defined.

Lemma NewVanityHandler_cache_age_witness :
  exists hd,
    NewVanityHandler
      (parses_to (example_config ["/abc"]%string (Some 0%Z))) ""%string
    = Ok (Some hd, None)
    /\ cachectrl hd = "public, max-age=0"%string.
Proof.
  destruct (NewVanityHandler_cache_age
              (parses_to (example_config ["/abc"]%string (Some 0%Z))) ""%string
              (example_config ["/abc"]%string (Some 0%Z)) eq_refl)
    as [_ [Hacc [Hcc _]]].
  destruct Hacc as [hd Hhd].
  - unfold effective_age. simpl. lia.
  - intros k e [He | []]. injection He as <- <-.
    split; intros [H1 H2]; [apply H1; reflexivity | apply H2].
    exists "example/repo"%string. reflexivity.
  - exists hd. split; [exact Hhd |].
    destruct (Hcc hd None Hhd) as [_ [_ [_ H0]]]. now apply H0.
Defined.

End Examples.

(** * Further properties: serving *)

(** ** What [find] returns, for any table *)

(** [find] returns without a panic; a returned pointer designates an
    entry whose path begins the query, the subpath being the rest of
    the query, less the slash in front on the immediate-child path. *)
Lemma find_result (pset : PathConfigSet) (path : string) :
  exists pc sub,
    find pset path = Ok (pc, sub)
    /\ match pc with
       | None => sub = ""
       | Some i =>
           exists e, nth_error pset i = Some e
                     /\ (path = Path e ++ sub \/ path = Path e ++ "/" ++ sub)
       end.
Proof.
  destruct (find_Search_total pset path) as [i [Hs Hi]].
  destruct (find_cases pset path i Hs Hi)
    as [[e [Hn [Hp Hf]]] | [[Hne [e [sub [Hpos [Hn [Hp Hf]]]]]]
                            | [Hne [Hnc [st [[Hsel _] Hf]]]]]].
  - exists (Some i), "". split; [exact Hf |]. exists e. split; [exact Hn |].
    left. now rewrite append_nil_r.
  - exists (Some (i - 1)), sub. split; [exact Hf |]. exists e. split; [exact Hn |].
    right. now rewrite <- append_assoc.
  - exists (bestMatchConfig st), (subpath st). split; [exact Hf |].
    destruct Hsel as [[Hb [Hsub _]] | [m [e [Hb [Hm [Hn [Hp _]]]]]]].
    + now rewrite Hb.
    + rewrite Hb. exists e. auto.
Qed.

Lemma find_no_prefix (pset : PathConfigSet) (path : string) :
  (forall e, In e pset -> ~ is_prefix (Path e) path) ->
  find pset path = Ok (None, "").
Proof.
  intros Hno. destruct (find_result pset path) as [pc [sub [Hf Hpc]]].
  destruct pc as [i|]; [| now subst].
  exfalso. destruct Hpc as [e [Hn Hp]].
  apply (Hno e (nth_error_In _ _ Hn)).
  destruct Hp as [Hp | Hp]; eexists; exact Hp.
Qed.

(** On an ascending table an entry whose path is the query makes the
    exact-match test succeed, at the first index that carries this
    path. *)
Lemma find_exact_first (pset : PathConfigSet) (e : PathConfig) :
  ascending pset = true -> In e pset ->
  exists i pc,
    find pset (Path e) = Ok (Some i, "")
    /\ nth_error pset i = Some pc /\ Path pc = Path e
    /\ forall k a, k < i -> nth_error pset k = Some a ->
                   (Path a <? Path e) = true.
Proof.
  intros Hasc Hin.
  destruct (In_nth_error _ _ Hin) as [k Hk].
  destruct (find_Search_sorted pset (Path e) Hasc) as [i [Hs [Hi [Hlo Hhi]]]].
  assert (Hik : i <= k).
  { destruct (le_lt_dec i k) as [H | H]; [assumption |].
    specialize (Hlo k e H Hk). rewrite ltb_irrefl in Hlo. discriminate. }
  assert (Hkn : k < Len pset) by (apply nth_error_Some; congruence).
  destruct (index_lt pset i) as [pc [Hpc _]]; [unfold Len in Hkn; lia |].
  assert (Heq : Path pc = Path e).
  { apply String.leb_antisym.
    - exact (ascending_nth pset i k pc e Hasc Hik Hpc Hk).
    - apply (Hhi i pc); [lia | assumption]. }
  destruct (find_cases pset (Path e) i Hs Hi)
    as [[e' [Hn [Hp Hf]]] | [[Hne _] | [Hne _]]];
    try (exfalso; exact (Hne pc Hpc Heq)).
  exists i, pc. auto.
Qed.

(** On an ascending table, a configured non-empty path that begins
    the query makes [find] return an entry, one whose path begins the
    query and is no shorter. *)
Lemma find_prefix_found (pset : PathConfigSet) (path : string) (e : PathConfig) :
  ascending pset = true -> In e pset -> Path e <> "" ->
  is_prefix (Path e) path ->
  exists i sub e',
    find pset path = Ok (Some i, sub)
    /\ nth_error pset i = Some e'
    /\ is_prefix (Path e') path
    /\ String.length (Path e) <= String.length (Path e').
Proof.
  intros Hasc Hin Hne [rest Hrest].
  destruct rest as [|c rest].
  { rewrite append_nil_r in Hrest. subst path.
    destruct (find_exact_first pset e Hasc Hin) as [i [pc [Hf [Hn [Hp _]]]]].
    exists i, "", pc. repeat split; try assumption.
    - exists "". now rewrite append_nil_r, Hp.
    - rewrite Hp. lia. }
  assert (Hsp : strict_prefix (Path e) path = true)
    by (apply strict_prefix_iff; exists (String c rest); split; [assumption | discriminate]).
  destruct (In_nth_error _ _ Hin) as [k Hk].
  destruct (find_Search_sorted pset path Hasc) as [i [Hs [Hi [Hlo Hhi]]]].
  pose proof (strict_prefix_below pset path i Hhi k e Hk Hsp) as Hki.
  destruct (find_cases pset path i Hs Hi)
    as [[a [Hn [Hp Hf]]] | [[Hnx [a [sub [Hpos [Hn [Hp Hf]]]]]]
                            | [Hnx [Hnc [st [[Hsel Hmax] Hf]]]]]].
  - exists i, "", a. repeat split; try assumption.
    + exists "". now rewrite append_nil_r.
    + rewrite Hp, Hrest, length_append. lia.
  - exists (i - 1), sub, a. repeat split; try assumption.
    + eexists. rewrite <- append_assoc. exact Hp.
    + destruct (le_lt_dec (String.length (Path e)) (String.length (Path a)))
        as [Hle | Hgt]; [assumption | exfalso].
      assert (Hea : (Path e <=? Path a) = true)
        by (apply (ascending_nth pset k (i - 1) e a); auto; lia).
      destruct (prefix_chain (Path e) (Path a) (String c rest) ("/" ++ sub))
        as [m Hm]; [rewrite <- Hrest, Hp; apply append_assoc | lia |].
      assert (Hm' : m <> "").
      { intros ->. rewrite append_nil_r in Hm. rewrite Hm in Hgt. lia. }
      pose proof (prefix_ltb (Path a) m Hm') as Hlt. rewrite <- Hm in Hlt.
      rewrite ltb_negb_leb, Hea in Hlt. discriminate.
  - assert (Hb : lenShortestSubpath st <= String.length (String c rest))
      by (apply (Hmax k e); auto; discriminate).
    pose proof (f_equal String.length Hrest) as Hl. rewrite length_append in Hl.
    destruct Hsel as [[_ [_ Hn]] | [m [a [Hbm [Hm [Hnm [Hpa [_ [_ Hla]]]]]]]]].
    + exfalso. destruct (Path e); [congruence | simpl in *; lia].
    + exists m, (subpath st), a. rewrite Hbm in Hf. repeat split; try assumption.
      * eexists. exact Hpa.
      * pose proof (f_equal String.length Hpa) as Hl'.
        rewrite length_append in Hl'. lia.
Qed.

(** On an ascending table with an entry under the empty path, a query
    that begins with a slash and sorts below every other path is
    resolved to such an entry, with the query less the slash as
    subpath. *)
Lemma find_root_below (pset : PathConfigSet) (sub : string) :
  ascending pset = true ->
  (exists e, In e pset /\ Path e = "") ->
  (forall e, In e pset -> Path e = "" \/ ("/" ++ sub <? Path e) = true) ->
  exists i e,
    find pset ("/" ++ sub) = Ok (Some i, sub)
    /\ nth_error pset i = Some e /\ Path e = "".
Proof.
  intros Hasc [e0 [Hin0 He0]] Hall.
  destruct (In_nth_error _ _ Hin0) as [k0 Hk0].
  destruct (find_Search_sorted pset ("/" ++ sub) Hasc) as [i [Hs [Hi [Hlo Hhi]]]].
  assert (Hk0i : k0 < i).
  { destruct (le_lt_dec i k0) as [H | H]; [| assumption].
    specialize (Hhi k0 e0 H Hk0). rewrite He0 in Hhi. discriminate. }
  destruct (index_lt pset (i - 1)) as [e [Hn _]]; [unfold Len in Hi; lia |].
  assert (He : Path e = "").
  { destruct (Hall e (nth_error_In _ _ Hn)) as [H | H]; [assumption | exfalso].
    assert (Hlt : (Path e <? "/" ++ sub) = true) by (apply (Hlo (i - 1)); auto; lia).
    pose proof (ltb_trans _ _ _ Hlt H) as Hc. rewrite ltb_irrefl in Hc. discriminate. }
  destruct (find_cases pset ("/" ++ sub) i Hs Hi)
    as [[a [Hna [Hp Hf]]] | [[Hnx [a [sub' [Hpos [Hna [Hp Hf]]]]]]
                            | [Hnx [Hnc _]]]].
  - exfalso. destruct (Hall a (nth_error_In _ _ Hna)) as [H | H].
    + rewrite H in Hp. discriminate.
    + rewrite Hp, ltb_irrefl in H. discriminate.
  - rewrite Hn in Hna. injection Hna as <-. rewrite He in Hp. simpl in Hp.
    injection Hp as ->. exists (i - 1), e. auto.
  - exfalso. apply (Hnc e sub); [lia | assumption |]. now rewrite He.
Qed.

(** On an ascending table, a query that no non-empty configured path
    begins, and below which some non-empty configured path sorts, finds
    no match, whether or not the table holds the empty path. *)
Lemma find_none_above (pset : PathConfigSet) (path : string) (e0 : PathConfig) :
  ascending pset = true ->
  In e0 pset -> Path e0 <> "" -> (Path e0 <? path) = true ->
  (forall e, In e pset -> Path e <> "" -> ~ is_prefix (Path e) path) ->
  find pset path = Ok (None, "").
Proof.
  intros Hasc Hin0 Hne0 Hlt0 Hno.
  destruct (In_nth_error _ _ Hin0) as [k0 Hk0].
  destruct (find_Search_sorted pset path Hasc) as [i [Hs [Hi [Hlo Hhi]]]].
  assert (Hk0i : k0 < i).
  { destruct (le_lt_dec i k0) as [H | H]; [| assumption].
    specialize (Hhi k0 e0 H Hk0). rewrite ltb_negb_leb, Hhi in Hlt0. discriminate. }
  destruct (find_cases pset path i Hs Hi)
    as [[a [Hn [Hp Hf]]] | [[Hnx [a [sub [Hpos [Hn [Hp Hf]]]]]]
                            | [Hnx [Hnc [st [[Hsel _] Hf]]]]]].
  - exfalso. destruct (string_dec (Path a) "") as [Ea | Ea].
    + rewrite Ea in Hp. subst path. destruct (Path e0); [congruence | discriminate].
    + apply (Hno a (nth_error_In _ _ Hn) Ea).
      exists "". now rewrite append_nil_r, Hp.
  - exfalso. destruct (string_dec (Path a) "") as [Ea | Ea].
    + assert (Hle : (Path e0 <=? Path a) = true)
        by (apply (ascending_nth pset k0 (i - 1)); auto; lia).
      rewrite Ea in Hle. destruct (Path e0); [congruence | discriminate].
    + apply (Hno a (nth_error_In _ _ Hn) Ea).
      eexists. rewrite <- append_assoc. exact Hp.
  - destruct Hsel as [[Hb [Hsub _]] | [m [a [Hb [Hm [Hn [Hp [Hne _]]]]]]]].
    + now rewrite Hf, Hb, Hsub.
    + exfalso. apply (Hno a (nth_error_In _ _ Hn) Hne). eexists. exact Hp.
Qed.

(** C7. For every table, sorted or not, and every request path, [find]
    returns without a panic: every index into the table and the slice
    [path[len(pset[i-1].Path)+1:]] are in bounds.  It returns [nil]
    together with the empty subpath, or a pointer into the table to an
    entry whose path begins the query, with the rest of the query (less
    the slash, on the immediate-child path) as subpath.  When no entry
    can qualify, no configured path being a prefix of the query, the
    result is [nil] and the empty subpath; on a table in ascending
    order it is not [nil] when a non-empty configured path begins the
    query. *)
Theorem find_total (pset : PathConfigSet) (path : string) :
  exists pc sub,
    find pset path = Ok (pc, sub)
    /\ ((pc = None /\ sub = "")
        \/ (exists i e,
               pc = Some i /\ i < Len pset /\ nth_error pset i = Some e
               /\ (path = Path e ++ sub \/ path = Path e ++ "/" ++ sub)))
    /\ ((forall e, In e pset -> ~ is_prefix (Path e) path) ->
        pc = None /\ sub = "")
    /\ (ascending pset = true ->
        (exists e, In e pset /\ Path e <> "" /\ is_prefix (Path e) path) ->
        pc <> None).
Proof.
  destruct (find_result pset path) as [pc [sub [Hf Hpc]]].
  exists pc, sub. split; [exact Hf |]. split; [| split].
  - destruct pc as [i|]; [right | left; auto].
    destruct Hpc as [e [Hn Hp]]. exists i, e. repeat split; try assumption.
    apply nth_error_Some. congruence.
  - intros Hno. rewrite (find_no_prefix pset path Hno) in Hf.
    injection Hf as <- <-. auto.
  - intros Hasc [e [Hin [Hne Hpre]]].
    destruct (find_prefix_found pset path e Hasc Hin Hne Hpre)
      as [i [sub' [e' [Hf' _]]]].
    rewrite Hf' in Hf. injection Hf as <- _. discriminate.
Qed.

Section ServingProperties.

Variable execute_index : IndexData -> option string.
Variable execute_vanity : VanityTemplate -> option string.

(** X1. For every handler and every request [ServeHTTP] returns without
    a panic and gives the [Cache-Control] header the handler's value,
    whatever it replies.  The reply is the index page, only for the
    path [/]; or not-found, only for another path; or the vanity page
    of an entry of the table whose path begins the request path, with a
    subpath that is the rest of the request path, less at most one
    slash in front. *)
Theorem ServeHTTP_replies (h : VanityHandler) (r : Request) :
  exists rep,
    ServeHTTP execute_index execute_vanity h r = Ok (cachectrl h, rep)
    /\ ((rep = index_page execute_index h r /\ r_URL_Path r = "/")
        \/ (rep = HttpNotFound /\ r_URL_Path r <> "/")
        \/ (exists e sub,
               In e (paths h) /\ rep = vanity execute_vanity h e sub r
               /\ (r_URL_Path r = Path e ++ sub
                   \/ r_URL_Path r = Path e ++ "/" ++ sub))).
Proof.
  unfold ServeHTTP.
  destruct (find_result (paths h) (r_URL_Path r)) as [pc [sub [Hf Hpc]]].
  rewrite Hf. cbn [bind fst snd]. destruct pc as [i|].
  - destruct Hpc as [e [Hn Hp]]. rewrite (index_Some _ _ _ Hn). cbn [bind].
    eexists. split; [reflexivity |]. right. right.
    exists e, sub. split; [eapply nth_error_In; eassumption | auto].
  - destruct (r_URL_Path r =? "/") eqn:E; eexists; (split; [reflexivity |]).
    + left. split; [reflexivity | now apply String.eqb_eq].
    + right. left. split; [reflexivity | now apply String.eqb_neq].
Qed.

(** X2. A request whose path no configured path begins is never served
    a vanity page: it is answered with the index page when the path is
    [/] and with not-found otherwise. *)
Theorem ServeHTTP_unmatched (h : VanityHandler) (r : Request) :
  (forall e, In e (paths h) -> ~ is_prefix (Path e) (r_URL_Path r)) ->
  ServeHTTP execute_index execute_vanity h r
  = Ok (cachectrl h,
        if r_URL_Path r =? "/" then index_page execute_index h r else HttpNotFound).
Proof.
  intros Hno. unfold ServeHTTP.
  rewrite (find_no_prefix _ _ Hno). cbn [bind fst].
  destruct (r_URL_Path r =? "/"); reflexivity.
Qed.

(** X3. A request is read through its path and, only when the handler
    has no host configured, its [Host] header: two requests for one
    path get the same reply from a handler with a configured host,
    whatever their [Host] headers are. *)
Theorem ServeHTTP_host_header (h : VanityHandler) (r1 r2 : Request) :
  r_URL_Path r1 = r_URL_Path r2 ->
  host h <> "" \/ r_Host r1 = r_Host r2 ->
  ServeHTTP execute_index execute_vanity h r1
  = ServeHTTP execute_index execute_vanity h r2.
Proof.
  intros Hp Hh.
  assert (HH : Host h r1 = Host h r2).
  { unfold Host, DefaultHost. destruct (host h =? "") eqn:E; [| reflexivity].
    apply String.eqb_eq in E. destruct Hh; [contradiction | assumption]. }
  unfold ServeHTTP, index_page, vanity. rewrite Hp, HH. reflexivity.
Qed.

(** X4. On a table in ascending order, a request whose path begins with
    a configured non-empty path is served a vanity page, never
    not-found or the index: the page of an entry whose path begins the
    request path and is at least as long as the configured one. *)
Theorem ServeHTTP_prefix_served (h : VanityHandler) (r : Request) (e : PathConfig) :
  ascending (paths h) = true -> In e (paths h) -> Path e <> "" ->
  is_prefix (Path e) (r_URL_Path r) ->
  exists e' sub,
    In e' (paths h)
    /\ is_prefix (Path e') (r_URL_Path r)
    /\ String.length (Path e) <= String.length (Path e')
    /\ ServeHTTP execute_index execute_vanity h r
       = Ok (cachectrl h, vanity execute_vanity h e' sub r).
Proof.
  intros Hasc Hin Hne Hpre.
  destruct (find_prefix_found (paths h) (r_URL_Path r) e Hasc Hin Hne Hpre)
    as [i [sub [e' [Hf [Hn [Hp Hl]]]]]].
  exists e', sub. split; [eapply nth_error_In; eassumption |].
  split; [assumption |]. split; [assumption |].
  unfold ServeHTTP. rewrite Hf. cbn [bind fst snd].
  now rewrite (index_Some _ _ _ Hn).
Qed.

(** X5. The root is stored under the empty path.  On a table in
    ascending order that holds it, a request path that begins with a
    slash and sorts below every other path of the table is served the
    page of the root entry, with the request path less its leading
    slash as subpath.  The path [/] is such a request whenever every
    other path of the table is longer and begins with a slash. *)
Theorem ServeHTTP_root_entry (h : VanityHandler) (r : Request) (sub : string) :
  ascending (paths h) = true ->
  (exists e, In e (paths h) /\ Path e = "") ->
  r_URL_Path r = "/" ++ sub ->
  (forall e, In e (paths h) ->
             Path e = "" \/ (r_URL_Path r <? Path e) = true) ->
  exists e,
    In e (paths h) /\ Path e = ""
    /\ ServeHTTP execute_index execute_vanity h r
       = Ok (cachectrl h, vanity execute_vanity h e sub r).
Proof.
  intros Hasc Hroot Hpath Hall. rewrite Hpath in Hall.
  destruct (find_root_below (paths h) sub Hasc Hroot Hall) as [i [e [Hf [Hn He]]]].
  exists e. split; [eapply nth_error_In; eassumption |]. split; [assumption |].
  unfold ServeHTTP. rewrite Hpath, Hf. cbn [bind fst snd].
  now rewrite (index_Some _ _ _ Hn).
Qed.

(** X13. The root entry is no catch-all for the whole table.  On a
    table in ascending order, a request path that no non-empty
    configured path begins, and below which some non-empty configured
    path sorts, is answered with not-found (the index page for [/]),
    also when the table holds the root under the empty path. *)
Theorem ServeHTTP_root_not_catch_all
        (h : VanityHandler) (r : Request) (e0 : PathConfig) :
  ascending (paths h) = true ->
  In e0 (paths h) -> Path e0 <> "" -> (Path e0 <? r_URL_Path r) = true ->
  (forall e, In e (paths h) -> Path e <> "" ->
             ~ is_prefix (Path e) (r_URL_Path r)) ->
  ServeHTTP execute_index execute_vanity h r
  = Ok (cachectrl h,
        if r_URL_Path r =? "/" then index_page execute_index h r else HttpNotFound).
Proof.
  intros Hasc Hin Hne Hlt Hno. unfold ServeHTTP.
  rewrite (find_none_above _ _ e0 Hasc Hin Hne Hlt Hno). cbn [bind fst].
  destruct (r_URL_Path r =? "/"); reflexivity.
Qed.

End ServingProperties.

(** * Further properties: construction *)

Lemma HasPrefix_is_prefix (s p : string) :
  strings.HasPrefix s p = true <-> is_prefix p s.
Proof. apply HasPrefix_iff. Qed.

Lemma HasPrefix_not_prefix (s p : string) :
  strings.HasPrefix s p = false <-> ~ is_prefix p s.
Proof.
  rewrite <- HasPrefix_is_prefix.
  destruct (strings.HasPrefix s p); split; congruence.
Qed.

(** The entry the loop body builds. *)
Lemma path_entry_built (k : string) (e : VanityPath) (pc : PathConfig) :
  path_entry k e = inr pc -> built_from k e pc.
Proof.
  unfold path_entry, built_from, normalize.
  destruct (vp_Display e =? "") eqn:Hd; cbn [negb];
    [apply String.eqb_eq in Hd | apply String.eqb_neq in Hd];
    destruct (vp_VCS e =? "") eqn:Hv; cbn [negb];
    [apply String.eqb_eq in Hv | apply String.eqb_neq in Hv
     | apply String.eqb_eq in Hv | apply String.eqb_neq in Hv];
    destruct (strings.HasPrefix (vp_Repo e) "https://github.com/") eqn:Hg;
    [apply HasPrefix_is_prefix in Hg | apply HasPrefix_not_prefix in Hg
     | apply HasPrefix_is_prefix in Hg | apply HasPrefix_not_prefix in Hg
     | apply HasPrefix_is_prefix in Hg | apply HasPrefix_not_prefix in Hg
     | apply HasPrefix_is_prefix in Hg | apply HasPrefix_not_prefix in Hg];
    try discriminate;
    try (destruct (unknown_vcs (vp_VCS e)) eqn:Hu; [discriminate |];
         apply unknown_vcs_iff in Hu);
    try (destruct (strings.HasPrefix (vp_Repo e) "https://bitbucket.org") eqn:Hb;
         [apply HasPrefix_is_prefix in Hb | apply HasPrefix_not_prefix in Hb]);
    intros H; injection H as <-; cbn [Path Repo Display VCS];
    repeat split; try tauto; try congruence.
Qed.

Section Construction.

Local Open Scope list_scope.

(** The loop appends the entry of each binding, in the order of the
    iteration. *)
Lemma range_Paths_entries (bs : list (string * VanityPath)) :
  forall acc ps,
    range_Paths bs acc = inr ps ->
    exists es,
      ps = acc ++ es
      /\ Forall2 (fun kv pc => path_entry (fst kv) (snd kv) = inr pc) bs es.
Proof.
  induction bs as [|[k e] bs IH]; intros acc ps H; simpl in H.
  - injection H as <-. exists []. rewrite app_nil_r. split; [reflexivity | constructor].
  - destruct (path_entry k e) as [err | pc] eqn:He; [discriminate |].
    destruct (IH _ _ H) as [es [Hps Hall]].
    exists (pc :: es). split; [now rewrite Hps, <- app_assoc |].
    constructor; assumption.
Qed.

(** It returns with the error of the first binding, in the order of
    the iteration, that it rejects. *)
Lemma range_Paths_first_error (bs : list (string * VanityPath)) :
  forall acc err,
    range_Paths bs acc = inl err ->
    exists bs1 k e bs2,
      bs = bs1 ++ (k, e) :: bs2
      /\ path_entry k e = inl err
      /\ Forall (fun kv => exists pc, path_entry (fst kv) (snd kv) = inr pc) bs1.
Proof.
  induction bs as [|[k e] bs IH]; intros acc err H; simpl in H; [discriminate |].
  destruct (path_entry k e) as [err' | pc] eqn:He.
  - injection H as <-. exists [], k, e, bs. repeat split; [assumption | constructor].
  - destruct (IH _ _ H) as [bs1 [k' [e' [bs2 [Hbs [He' Hall]]]]]].
    exists ((k, e) :: bs1), k', e', bs2. split; [now rewrite Hbs |].
    split; [assumption |]. constructor; [eauto | assumption].
Qed.

Variable yaml_Unmarshal : string -> option VanityConfig.
Variable config : string.

(** What a returned handler is made of. *)
Lemma NewVanityHandler_accepted (hd : VanityHandler) (err : option error) :
  NewVanityHandler yaml_Unmarshal config = Ok (Some hd, err) ->
  err = None
  /\ exists parsed es,
       yaml_Unmarshal config = Some parsed
       /\ Forall2 (fun kv pc => built_from (fst kv) (snd kv) pc)
                  (cfg_Paths parsed) es
       /\ Permutation es (paths hd)
       /\ ascending (paths hd) = true
       /\ host hd = cfg_Host parsed
       /\ cachectrl hd = ("public, max-age=" ++ fmt_d (effective_age parsed))%string.
Proof.
  unfold NewVanityHandler, effective_age.
  destruct (yaml_Unmarshal config) as [parsed|]; [| discriminate].
  destruct (match cfg_CacheAge parsed with
            | Some a => if (a <? 0)%Z then inl ErrCacheMaxAgeNegative else inr a
            | None => inr 86400%Z
            end) as [e | age] eqn:Hage; [discriminate |].
  assert (Hage' : age = match cfg_CacheAge parsed with
                        | Some a => a
                        | None => 86400%Z
                        end).
  { destruct (cfg_CacheAge parsed) as [a|]; [| congruence].
    destruct (a <? 0)%Z; congruence. }
  destruct (range_Paths (cfg_Paths parsed) []) as [e | ps] eqn:Hr; [discriminate |].
  destruct (range_Paths_entries _ _ _ Hr) as [es [Hps Hall]]. simpl in Hps. subst ps.
  destruct (sort_Sort_spec es) as [sorted [Hsort [Hperm Hasc]]].
  rewrite Hsort. cbn [bind]. intros H. injection H as <- <-.
  split; [reflexivity |]. exists parsed, es. cbn [paths host cachectrl].
  repeat split; try assumption; [| now rewrite Hage'].
  clear -Hall. induction Hall; constructor; [now apply path_entry_built | assumption].
Qed.

Lemma Forall2_map_Path (bs : list (string * VanityPath)) (es : PathConfigSet) :
  Forall2 (fun kv pc => built_from (fst kv) (snd kv) pc) bs es ->
  map Path es = map (fun kv => normalize (fst kv)) bs.
Proof.
  induction 1 as [|kv pc bs es [Hp _] _ IH]; simpl; [reflexivity |].
  now rewrite Hp, IH.
Qed.

Lemma strictly_ascending_distinct (l : PathConfigSet) :
  strictly_ascending l = true -> distinct_paths l = true.
Proof.
  induction l as [|a t IH]; intros H; [reflexivity |].
  simpl. apply andb_true_iff. split.
  - apply negb_true_iff.
    destruct (existsb (fun b => (Path b =? Path a)%string) t) eqn:E; [| reflexivity].
    apply existsb_exists in E. destruct E as [b [Hin Hb]].
    apply String.eqb_eq in Hb.
    pose proof (strictly_ascending_head a t H b Hin) as Hlt.
    rewrite Hb, ltb_irrefl in Hlt. discriminate.
  - apply IH. eapply strictly_ascending_tail; eassumption.
Qed.

(** X6. The table of every handler [NewVanityHandler] returns is in
    ascending order of path, which is what [find] relies on, and has
    one entry for each configured key: none is dropped or merged.  It
    is strictly ascending exactly when no two keys are the same once
    normalized; two keys that differ by a trailing slash leave two
    entries under one path. *)
Theorem NewVanityHandler_table (hd : VanityHandler) (err : option error) :
  NewVanityHandler yaml_Unmarshal config = Ok (Some hd, err) ->
  exists parsed,
    yaml_Unmarshal config = Some parsed
    /\ ascending (paths hd) = true
    /\ List.length (paths hd) = List.length (cfg_Paths parsed)
    /\ Permutation (map Path (paths hd))
                   (map (fun kv => normalize (fst kv)) (cfg_Paths parsed))
    /\ (strictly_ascending (paths hd) = true
        <-> NoDup (map (fun kv => normalize (fst kv)) (cfg_Paths parsed))).
Proof.
  intros H.
  destruct (NewVanityHandler_accepted hd err H)
    as [_ [parsed [es [Hy [Hall [Hperm [Hasc _]]]]]]].
  exists parsed. split; [assumption |]. split; [assumption |].
  pose proof (Forall2_map_Path _ _ Hall) as Hmap.
  assert (Hpm : Permutation (map Path (paths hd))
                            (map (fun kv => normalize (fst kv)) (cfg_Paths parsed))).
  { rewrite <- Hmap. apply Permutation_map. now apply Permutation_sym. }
  split; [| split; [exact Hpm |]].
  - rewrite <- (Permutation_length Hperm). symmetry.
    eapply Forall2_length; eassumption.
  - split.
    + intros Hs. apply (Permutation_NoDup Hpm).
      apply distinct_paths_NoDup. now apply strictly_ascending_distinct.
    + intros Hnd. apply ascending_distinct_strict; [assumption |].
      apply distinct_paths_NoDup.
      apply (Permutation_NoDup (Permutation_sym Hpm) Hnd).
Qed.

(** X7. Each entry of a returned handler's table is built from one
    binding of the configuration, and each binding has its entry: the
    path is the key normalized and the repo is kept; a stated display is
    kept, a missing one is inferred for a github repo and, failing
    that, for a bitbucket repo, and is empty otherwise; a stated kind
    is kept, a missing one is git.  The handler's host is the
    configured one. *)
Theorem NewVanityHandler_entries (hd : VanityHandler) (err : option error) :
  NewVanityHandler yaml_Unmarshal config = Ok (Some hd, err) ->
  exists parsed,
    yaml_Unmarshal config = Some parsed
    /\ host hd = cfg_Host parsed
    /\ (forall pc, In pc (paths hd) ->
                   exists k e, In (k, e) (cfg_Paths parsed) /\ built_from k e pc)
    /\ (forall k e, In (k, e) (cfg_Paths parsed) ->
                    exists pc, In pc (paths hd) /\ built_from k e pc).
Proof.
  intros H.
  destruct (NewVanityHandler_accepted hd err H)
    as [_ [parsed [es [Hy [Hall [Hperm [_ [Hh _]]]]]]]].
  exists parsed. split; [assumption |]. split; [assumption |]. split.
  - intros pc Hin. apply (Permutation_in _ (Permutation_sym Hperm)) in Hin.
    clear -Hall Hin. induction Hall as [|[k e] pc' bs es Hb _ IH]; [destruct Hin |].
    destruct Hin as [<- | Hin].
    + exists k, e. split; [now left | exact Hb].
    + destruct (IH Hin) as [k' [e' [Hin' Hb']]]. exists k', e'. split; [now right | exact Hb'].
  - intros k e Hin.
    assert (Hex : exists pc, In pc es /\ built_from k e pc).
    { clear -Hall Hin. induction Hall as [|[k' e'] pc' bs es Hb _ IH]; [destruct Hin |].
      destruct Hin as [Heq | Hin].
      - injection Heq as -> ->. exists pc'. split; [now left | exact Hb].
      - destruct (IH Hin) as [pc [Hpc Hb']]. exists pc. split; [now right | exact Hb']. }
    destruct Hex as [pc [Hpc Hb]]. exists pc. split; [| exact Hb].
    now apply (Permutation_in _ Hperm).
Qed.

(** X8. When [NewVanityHandler] returns the error of an entry, the
    error names a key of the configuration, as it is configured and not
    normalized, together with its repo; that entry states an unknown
    kind or states none with a repo outside github, and it is the first
    such entry in the order the map is visited.  The message is the same
    in both cases: it says that the kind cannot be inferred. *)
Theorem NewVanityHandler_entry_error (h : option VanityHandler) (k repo : string) :
  NewVanityHandler yaml_Unmarshal config = Ok (h, Some (InvalidVCSError k repo)) ->
  exists parsed bs1 e bs2,
    yaml_Unmarshal config = Some parsed
    /\ cfg_Paths parsed = bs1 ++ (k, e) :: bs2
    /\ repo = vp_Repo e
    /\ (states_unknown_vcs e \/ vcs_uninferable e)
    /\ Forall (fun kv => ~ states_unknown_vcs (snd kv) /\ ~ vcs_uninferable (snd kv)) bs1
    /\ Error (InvalidVCSError k repo)
       = ("configuration for " ++ k ++ ": cannot infer VCS from " ++ vp_Repo e)%string.
Proof.
  unfold NewVanityHandler.
  destruct (yaml_Unmarshal config) as [parsed|]; [| discriminate].
  destruct (match cfg_CacheAge parsed with
            | Some a => if (a <? 0)%Z then inl ErrCacheMaxAgeNegative else inr a
            | None => inr 86400%Z
            end) as [e | age] eqn:Hage.
  { destruct (cfg_CacheAge parsed) as [a|]; [| discriminate].
    destruct (a <? 0)%Z; [| discriminate]. injection Hage as <-. discriminate. }
  destruct (range_Paths (cfg_Paths parsed) []) as [e | ps] eqn:Hr.
  - intros H. injection H as _ ->.
    destruct (range_Paths_first_error _ _ _ Hr) as [bs1 [k' [e' [bs2 [Hbs [He Hall]]]]]].
    destruct (path_entry_cases k' e') as [[He' Hbad] | [pc [He' _]]];
      [| congruence].
    rewrite He' in He. injection He as -> <-.
    exists parsed, bs1, e', bs2. repeat split; try assumption.
    eapply Forall_impl; [| exact Hall].
    intros [k0 e0] [pc Hpc]. simpl in *.
    destruct (path_entry_cases k0 e0) as [[He0 _] | [pc' [_ [_ [_ [_ Hok]]]]]];
      [congruence | exact Hok].
  - destruct (sort_Sort_spec ps) as [sorted [Hsort _]]. rewrite Hsort. discriminate.
Qed.

End Construction.

(** * Construction and resolution together *)

Lemma distinct_strings_NoDup (l : list string) :
  distinct_strings l = true <-> NoDup l.
Proof.
  induction l as [|a t IH]; simpl.
  - split; [constructor | reflexivity].
  - rewrite andb_true_iff, negb_true_iff, IH. split.
    + intros [Hn Hd]. constructor; [| assumption].
      intros Hin.
      assert (existsb (String.eqb a) t = true); [| congruence].
      apply existsb_exists. exists a. split; [assumption | apply String.eqb_refl].
    + intros H. inversion H; subst. split; [| assumption].
      destruct (existsb (String.eqb a) t) eqn:E; [| reflexivity].
      apply existsb_exists in E. destruct E as [b [Hin Hb]].
      apply String.eqb_eq in Hb. subst b. contradiction.
Qed.

Section Canonical.

Local Open Scope list_scope.

(** The converse of [range_Paths_entries]: bindings that all give an
    entry are all appended. *)
Lemma range_Paths_complete (bs : list (string * VanityPath)) :
  forall acc es,
    Forall2 (fun kv pc => path_entry (fst kv) (snd kv) = inr pc) bs es ->
    range_Paths bs acc = inr (acc ++ es).
Proof.
  induction bs as [|[k e] bs IH]; intros acc es H; inversion H; subst; simpl.
  - now rewrite app_nil_r.
  - simpl in *. match goal with Hpe : path_entry k e = inr _ |- _ => rewrite Hpe end.
    rewrite IH with (es := l') by assumption. now rewrite <- app_assoc.
Qed.

(** What [NewVanityHandler] ran through when it returns a handler. *)
Lemma NewVanityHandler_unfold
      (yaml_Unmarshal : string -> option VanityConfig) (config : string)
      (hd : VanityHandler) (err : option error) :
  NewVanityHandler yaml_Unmarshal config = Ok (Some hd, err) ->
  exists parsed es,
    yaml_Unmarshal config = Some parsed
    /\ (0 <= effective_age parsed)%Z
    /\ range_Paths (cfg_Paths parsed) [] = inr es
    /\ sort_Sort es = Ok (paths hd)
    /\ hd = {| host := cfg_Host parsed; paths := paths hd;
               cachectrl := ("public, max-age=" ++ fmt_d (effective_age parsed))%string |}
    /\ err = None.
Proof.
  unfold NewVanityHandler, effective_age.
  destruct (yaml_Unmarshal config) as [parsed|]; [| discriminate].
  destruct (cfg_CacheAge parsed) as [a|] eqn:Ha.
  - destruct (a <? 0)%Z eqn:Hneg; [discriminate |]. apply Z.ltb_ge in Hneg.
    destruct (range_Paths (cfg_Paths parsed) []) as [e | ps] eqn:Hr; [discriminate |].
    destruct (sort_Sort ps) as [sorted | pn] eqn:Hsort; [| discriminate].
    cbn [bind]. intros H. injection H as <- <-.
    exists parsed, ps. rewrite Ha. cbn [paths]. auto 10.
  - destruct (range_Paths (cfg_Paths parsed) []) as [e | ps] eqn:Hr; [discriminate |].
    destruct (sort_Sort ps) as [sorted | pn] eqn:Hsort; [| discriminate].
    cbn [bind]. intros H. injection H as <- <-.
    exists parsed, ps. rewrite Ha. cbn [paths]. repeat split; auto. lia.
Qed.

(** The same steps, run forward. *)
Lemma NewVanityHandler_fold
      (yaml_Unmarshal : string -> option VanityConfig) (config : string)
      (parsed : VanityConfig) (es t : PathConfigSet) :
  yaml_Unmarshal config = Some parsed ->
  (0 <= effective_age parsed)%Z ->
  range_Paths (cfg_Paths parsed) [] = inr es ->
  sort_Sort es = Ok t ->
  NewVanityHandler yaml_Unmarshal config
  = Ok (Some {| host := cfg_Host parsed; paths := t;
                cachectrl := ("public, max-age=" ++ fmt_d (effective_age parsed))%string |},
        None).
Proof.
  unfold NewVanityHandler, effective_age. intros -> Hage -> Hsort.
  destruct (cfg_CacheAge parsed) as [a|].
  - replace (a <? 0)%Z with false by (symmetry; apply Z.ltb_ge; lia).
    rewrite Hsort. reflexivity.
  - rewrite Hsort. reflexivity.
Qed.

Lemma entries_built (bs : list (string * VanityPath)) (es : PathConfigSet) :
  Forall2 (fun kv pc => path_entry (fst kv) (snd kv) = inr pc) bs es ->
  Forall2 (fun kv pc => built_from (fst kv) (snd kv) pc) bs es.
Proof.
  induction 1; constructor; [now apply path_entry_built | assumption].
Qed.

(** C6. Construction is [NewVanityHandler]: it builds one entry for
    each binding of the configuration, in the order in which the map is
    visited, and sorts them with [sort.Sort].  When the paths of the
    entries, the normalized keys, are pairwise distinct, the table of
    the returned handler is strictly ascending by path under the
    byte-wise order and holds those paths.  From the same bindings
    visited in any other order it returns the same handler, with the
    same table, so [find] answers every query alike; and the table is
    the only ascending arrangement of its entries, whatever the sorting
    algorithm. *)
Theorem NewVanityHandler_sorted_canonical
        (yaml_Unmarshal yaml_Unmarshal' : string -> option VanityConfig)
        (config config' : string) (parsed parsed' : VanityConfig)
        (hd : VanityHandler) (err : option error) :
  yaml_Unmarshal config = Some parsed ->
  yaml_Unmarshal' config' = Some parsed' ->
  cfg_Host parsed' = cfg_Host parsed ->
  cfg_CacheAge parsed' = cfg_CacheAge parsed ->
  Permutation (cfg_Paths parsed) (cfg_Paths parsed') ->
  distinct_strings (map (fun kv => normalize (fst kv)) (cfg_Paths parsed)) = true ->
  NewVanityHandler yaml_Unmarshal config = Ok (Some hd, err) ->
  strictly_ascending (paths hd) = true
  /\ Permutation (map Path (paths hd))
                 (map (fun kv => normalize (fst kv)) (cfg_Paths parsed))
  /\ NewVanityHandler yaml_Unmarshal' config' = Ok (Some hd, None)
  /\ (forall hd' err' q,
         NewVanityHandler yaml_Unmarshal' config' = Ok (Some hd', err') ->
         paths hd' = paths hd /\ find (paths hd') q = find (paths hd) q)
  /\ (forall t, Permutation (paths hd) t -> ascending t = true -> t = paths hd).
Proof.
  intros Hy Hy' Hhost Hage Hperm Hdist H.
  destruct (NewVanityHandler_unfold _ _ _ _ H)
    as [p0 [es [Hy0 [Hpos [Hr [Hsort [Hhd _]]]]]]].
  assert (p0 = parsed) by congruence. subst p0.
  pose proof (range_Paths_entries _ _ _ Hr) as [es0 [Hes0 Hall]].
  simpl in Hes0. subst es0.
  destruct (Permutation_Forall2 Hperm Hall) as [es' [Hpes Hall']].
  pose proof (range_Paths_complete _ [] _ Hall') as Hr'. simpl in Hr'.
  assert (Hmap : map Path es = map (fun kv => normalize (fst kv)) (cfg_Paths parsed))
    by (apply Forall2_map_Path, entries_built; assumption).
  assert (Hd : distinct_paths es = true)
    by (apply distinct_paths_NoDup; rewrite Hmap; now apply distinct_strings_NoDup).
  destruct (sort_Sort_canonical es es' Hd Hpes)
    as [t [Ht [Hstrict [Hpt [Ht' [_ Huniq]]]]]].
  assert (t = paths hd) by congruence. subst t.
  assert (Hage' : effective_age parsed' = effective_age parsed)
    by (unfold effective_age; now rewrite Hage).
  assert (Hnew : NewVanityHandler yaml_Unmarshal' config' = Ok (Some hd, None)).
  { rewrite (NewVanityHandler_fold yaml_Unmarshal' config' parsed' es' (paths hd));
      try assumption; [| rewrite Hage'; assumption].
    rewrite Hhost, Hage', <- Hhd. reflexivity. }
  split; [assumption |]. split; [| split; [assumption | split]].
  - rewrite <- Hmap. apply Permutation_map. now apply Permutation_sym.
  - intros hd' err' q H'. rewrite Hnew in H'. injection H' as <- _. auto.
  - intros t Hpt' Hat. apply Huniq; [| assumption].
    rewrite <- Hpes, Hpt. exact Hpt'.
Qed.

(** C3. From a configuration whose keys are [/], [/abc] and [/xyz],
    visited in any order, [NewVanityHandler] builds the table with the
    paths [""], [/abc] and [/xyz], the root under the empty path.  On
    it [find] resolves [/def] to no match, [nil] and the empty subpath;
    in particular it does not return the root entry with subpath
    [def]. *)
Theorem find_def_no_match
        (yaml_Unmarshal : string -> option VanityConfig) (config : string)
        (parsed : VanityConfig) (hd : VanityHandler) (err : option error) :
  yaml_Unmarshal config = Some parsed ->
  Permutation (map fst (cfg_Paths parsed)) ["/"; "/abc"; "/xyz"]%string ->
  NewVanityHandler yaml_Unmarshal config = Ok (Some hd, err) ->
  Permutation (map Path (paths hd)) [""; "/abc"; "/xyz"]%string
  /\ find (paths hd) "/def" = Ok (None, ""%string)
  /\ forall i, find (paths hd) "/def" <> Ok (Some i, "def"%string).
Proof.
  intros Hy Hkeys H.
  destruct (NewVanityHandler_accepted _ _ _ _ H)
    as [_ [p0 [es [Hy0 [Hall [Hperm [Hasc _]]]]]]].
  assert (p0 = parsed) by congruence. subst p0.
  assert (Hpaths : Permutation (map Path (paths hd)) [""; "/abc"; "/xyz"]%string).
  { rewrite <- Hperm, (Forall2_map_Path _ _ Hall).
    rewrite <- (map_map fst normalize).
    exact (Permutation_map normalize Hkeys). }
  assert (Hfind : find (paths hd) "/def" = Ok (None, ""%string)).
  { assert (Habc : In "/abc"%string (map Path (paths hd)))
      by (apply (Permutation_in _ (Permutation_sym Hpaths)); simpl; auto).
    apply in_map_iff in Habc. destruct Habc as [e0 [He0 Hin0]].
    apply (find_none_above (paths hd) "/def" e0 Hasc Hin0).
    - rewrite He0. discriminate.
    - rewrite He0. reflexivity.
    - intros e Hin Hne [rest Hrest].
      assert (Hp : In (Path e) [""; "/abc"; "/xyz"]%string)
        by (apply (Permutation_in _ Hpaths); now apply in_map).
      destruct Hp as [Hp | [Hp | [Hp | []]]]; rewrite <- Hp in *;
        [now apply Hne | discriminate Hrest | discriminate Hrest]. }
  split; [assumption |]. split; [assumption |].
  intros i Hi. rewrite Hfind in Hi. discriminate.
Qed.

End Canonical.

(** * Further properties: construction and serving together *)

Lemma normalize_empty (k : string) : normalize k = "" -> k = "" \/ k = "/".
Proof.
  intros H. destruct (TrimSuffix_normalized k) as [Hk | [Hk _]];
    fold (normalize k) in Hk; rewrite H in Hk; auto.
Qed.

Lemma normalize_slash (k : string) : normalize k = "/" -> k = "//".
Proof.
  intros H. destruct (TrimSuffix_normalized k) as [Hk | [Hk Hno]];
    fold (normalize k) in Hk; rewrite H in Hk; [assumption |].
  exfalso. apply (Hno ""). now rewrite <- Hk.
Qed.

Lemma is_prefix_of_slash (p : string) : is_prefix p "/" -> p = "" \/ p = "/".
Proof.
  intros [rest H]. destruct p as [|c p]; [now left |].
  simpl in H. injection H as <- H. right.
  destruct p; [reflexivity | discriminate].
Qed.

Lemma leb_append_head (h a b : string) : (h ++ a <=? h ++ b) = (a <=? b).
Proof.
  unfold String.leb. induction h as [|c h IH]; simpl; [reflexivity |].
  now rewrite ascii_compare_refl.
Qed.

Section ConstructionLists.

Local Open Scope list_scope.

Lemma Forall2_In_left {A B} (R : A -> B -> Prop) (l1 : list A) (l2 : list B) (a : A) :
  Forall2 R l1 l2 -> In a l1 -> exists b, In b l2 /\ R a b.
Proof.
  induction 1 as [|x y l1 l2 HR _ IH]; intros Hin; [destruct Hin |].
  destruct Hin as [<- | Hin]; [exists y; split; [now left | exact HR] |].
  destruct (IH Hin) as [b [Hb HRb]]. exists b. split; [now right | exact HRb].
Qed.

Lemma Forall2_In_right {A B} (R : A -> B -> Prop) (l1 : list A) (l2 : list B) (b : B) :
  Forall2 R l1 l2 -> In b l2 -> exists a, In a l1 /\ R a b.
Proof.
  induction 1 as [|x y l1 l2 HR _ IH]; intros Hin; [destruct Hin |].
  destruct Hin as [<- | Hin]; [exists x; split; [now left | exact HR] |].
  destruct (IH Hin) as [a [Ha HRa]]. exists a. split; [now right | exact HRa].
Qed.

Lemma ascending_handlers (hst : string) (pset : PathConfigSet) :
  ascending pset = true ->
  strings_ascending (map (fun e => (hst ++ Path e)%string) pset) = true.
Proof.
  induction pset as [|a [|b t] IH]; try reflexivity.
  change (ascending (a :: b :: t)) with ((Path a <=? Path b)%string && ascending (b :: t)).
  intros [Hab Ht]%andb_true_iff.
  change (strings_ascending (map (fun e => (hst ++ Path e)%string) (a :: b :: t)))
    with (((hst ++ Path a)%string <=? (hst ++ Path b)%string)%string
          && strings_ascending (map (fun e => (hst ++ Path e)%string) (b :: t))).
  rewrite leb_append_head, Hab. simpl. now apply IH.
Qed.

End ConstructionLists.

Section EndToEnd.

Variable yaml_Unmarshal : string -> option VanityConfig.
Variable execute_index : IndexData -> option string.
Variable execute_vanity : VanityTemplate -> option string.
Variable config : string.

(** X9. A handler that [NewVanityHandler] returns serves every
    configured path: a request for a key of the configuration, in its
    normalized form, gets the vanity page of an entry with this path,
    built from a key with the same normalized form, with the empty
    subpath, and a [Cache-Control] header [public, max-age=N] for the
    cache age N in force. *)
Theorem NewVanityHandler_serves_configured
        (hd : VanityHandler) (err : option error) (parsed : VanityConfig)
        (k : string) (e : VanityPath) (r : Request) :
  NewVanityHandler yaml_Unmarshal config = Ok (Some hd, err) ->
  yaml_Unmarshal config = Some parsed ->
  In (k, e) (cfg_Paths parsed) ->
  r_URL_Path r = normalize k ->
  exists pc k' e',
    In pc (paths hd) /\ Path pc = normalize k
    /\ In (k', e') (cfg_Paths parsed) /\ normalize k' = normalize k
    /\ built_from k' e' pc
    /\ ServeHTTP execute_index execute_vanity hd r
       = Ok ("public, max-age=" ++ fmt_d (effective_age parsed),
             vanity execute_vanity hd pc "" r).
Proof.
  intros H Hy Hin Hpath.
  destruct (NewVanityHandler_accepted yaml_Unmarshal config hd err H)
    as [_ [parsed' [es [Hy' [Hall [Hperm [Hasc [_ Hcc]]]]]]]].
  assert (parsed' = parsed) by congruence. subst parsed'.
  destruct (Forall2_In_left _ _ _ _ Hall Hin) as [pc0 [Hpc0 Hb0]].
  simpl in Hb0. apply (Permutation_in _ Hperm) in Hpc0.
  destruct (find_exact_first (paths hd) pc0 Hasc Hpc0) as [i [pc [Hf [Hn [Hp _]]]]].
  assert (Hp0 : Path pc0 = normalize k) by (destruct Hb0; assumption).
  pose proof (nth_error_In _ _ Hn) as Hpc.
  destruct (Forall2_In_right _ _ _ _ Hall
              (Permutation_in _ (Permutation_sym Hperm) Hpc)) as [[k' e'] [Hin' Hb']].
  simpl in Hb'.
  exists pc, k', e'. split; [assumption |]. split; [congruence |].
  split; [assumption |]. split; [destruct Hb'; congruence |]. split; [assumption |].
  unfold ServeHTTP. rewrite Hpath, <- Hp0, Hf. cbn [bind fst snd].
  rewrite (index_Some _ _ _ Hn). cbn [bind]. now rewrite Hcc.
Qed.

(** X10. When no key of the configuration is the root (a key that is
    empty, [/] or [//]), a handler that [NewVanityHandler] returns
    answers the path [/] with the index page; the index lists every
    configured key, normalized and behind the host, in ascending
    order. *)
Theorem NewVanityHandler_index
        (hd : VanityHandler) (err : option error) (parsed : VanityConfig)
        (r : Request) :
  NewVanityHandler yaml_Unmarshal config = Ok (Some hd, err) ->
  yaml_Unmarshal config = Some parsed ->
  (forall k e, In (k, e) (cfg_Paths parsed) -> k <> "" /\ k <> "/" /\ k <> "//") ->
  r_URL_Path r = "/" ->
  exists handlers,
    ServeHTTP execute_index execute_vanity hd r
    = Ok (cachectrl hd,
          render (execute_index {| i_Host := Host hd r; i_Handlers := handlers |}))
    /\ strings_ascending handlers = true
    /\ Permutation handlers
                   (map (fun kv => Host hd r ++ normalize (fst kv)) (cfg_Paths parsed)).
Proof.
  intros H Hy Hkeys Hpath.
  destruct (NewVanityHandler_accepted yaml_Unmarshal config hd err H)
    as [_ [parsed' [es [Hy' [Hall [Hperm [Hasc _]]]]]]].
  assert (parsed' = parsed) by congruence. subst parsed'.
  exists (map (fun e => Host hd r ++ Path e) (paths hd)). split; [| split].
  - unfold ServeHTTP. rewrite find_no_prefix; [rewrite Hpath; reflexivity |].
    intros e Hin Hpre. rewrite Hpath in Hpre.
    destruct (Forall2_In_right _ _ _ _ Hall
                (Permutation_in _ (Permutation_sym Hperm) Hin)) as [[k v] [Hin' Hb]].
    simpl in Hb. destruct Hb as [Hp _].
    destruct (Hkeys k v Hin') as [H1 [H2 H3]].
    destruct (is_prefix_of_slash _ Hpre) as [He | He]; rewrite He in Hp; symmetry in Hp.
    + destruct (normalize_empty k Hp); contradiction.
    + apply normalize_slash in Hp. contradiction.
  - now apply ascending_handlers.
  - rewrite <- (map_map (fun kv => normalize (fst kv)) (fun p => Host hd r ++ p)
                        (cfg_Paths parsed)).
    rewrite <- (Forall2_map_Path _ _ Hall).
    rewrite <- (map_map Path (fun p => Host hd r ++ p) (paths hd)).
    apply Permutation_map, Permutation_map. now apply Permutation_sym.
Qed.

End EndToEnd.

(** * Further properties: the [sort.Interface] methods *)

Section Interface.

Local Open Scope list_scope.

Lemma update_length {A} (l : list A) (i : nat) (a : A) :
  List.length (update l i a) = List.length l.
Proof.
  revert i; induction l as [|c t IH]; intros [|i]; simpl; auto.
Qed.

Lemma nth_error_update_same {A} (l : list A) (i : nat) (a : A) :
  i < List.length l -> nth_error (update l i a) i = Some a.
Proof.
  revert i; induction l as [|c t IH]; intros [|i] H; simpl in *; try lia; auto.
  apply IH. lia.
Qed.

Lemma nth_error_update_other {A} (l : list A) (i k : nat) (a : A) :
  k <> i -> nth_error (update l i a) k = nth_error l k.
Proof.
  revert i k; induction l as [|c t IH]; intros [|i] [|k] H; simpl; auto; try lia.
Qed.

Lemma update_head_perm {A} (t : list A) (j : nat) (a b : A) :
  nth_error t j = Some b -> Permutation (a :: t) (b :: update t j a).
Proof.
  revert j; induction t as [|d t IH]; intros [|j] H; simpl in *; try discriminate.
  - injection H as ->. apply perm_swap.
  - eapply perm_trans; [apply perm_swap |].
    eapply perm_trans; [apply perm_skip, (IH j H) |]. apply perm_swap.
Qed.

Lemma update_swap_perm {A} (l : list A) :
  forall (i j : nat) (a b : A),
    nth_error l i = Some a -> nth_error l j = Some b ->
    Permutation l (update (update l i b) j a).
Proof.
  induction l as [|c t IH]; intros [|i] [|j] a b Ha Hb; simpl in *; try discriminate.
  - injection Ha as ->. reflexivity.
  - injection Ha as ->. now apply update_head_perm.
  - injection Hb as ->. now apply update_head_perm.
  - apply perm_skip. now apply IH.
Qed.

(** X11. [Swap(i, j)] panics exactly when an index is out of range.
    In range it exchanges the elements at [i] and [j] and leaves
    everything else, the length included, as it is: the result is a
    permutation of the table, and a second [Swap(i, j)] restores it. *)
Theorem Swap_exchanges (pset : PathConfigSet) (i j : nat) :
  ((Len pset <= i \/ Len pset <= j) /\ Swap pset i j = Panic IndexOutOfRange)
  \/ (i < Len pset /\ j < Len pset
      /\ exists pset',
           Swap pset i j = Ok pset'
           /\ Len pset' = Len pset
           /\ nth_error pset' i = nth_error pset j
           /\ nth_error pset' j = nth_error pset i
           /\ (forall k, k <> i -> k <> j -> nth_error pset' k = nth_error pset k)
           /\ Permutation pset pset'
           /\ Swap pset' i j = Ok pset).
Proof.
  unfold Swap, index, Len.
  destruct (nth_error pset i) as [a|] eqn:Ha.
  2:{ left. split; [left; now apply nth_error_None | reflexivity]. }
  destruct (nth_error pset j) as [b|] eqn:Hb.
  2:{ left. split; [right; now apply nth_error_None | reflexivity]. }
  right. cbn [bind].
  assert (Hi : i < List.length pset) by (apply nth_error_Some; congruence).
  assert (Hj : j < List.length pset) by (apply nth_error_Some; congruence).
  split; [assumption |]. split; [assumption |].
  set (pset' := update (update pset i b) j a).
  assert (Hj' : nth_error pset' j = Some a)
    by (apply nth_error_update_same; now rewrite update_length).
  assert (Hi' : nth_error pset' i = Some b).
  { destruct (Nat.eq_dec i j) as [-> | Hij].
    - rewrite Hj'. congruence.
    - unfold pset'. rewrite nth_error_update_other by assumption.
      now apply nth_error_update_same. }
  assert (Hother : forall k, k <> i -> k <> j -> nth_error pset' k = nth_error pset k).
  { intros k Hki Hkj. unfold pset'. now rewrite !nth_error_update_other by assumption. }
  exists pset'. split; [reflexivity |].
  split; [unfold pset'; now rewrite !update_length |].
  split; [congruence |]. split; [congruence |]. split; [exact Hother |].
  split; [now apply update_swap_perm |].
  rewrite Hi', Hj'. cbn [bind]. apply f_equal.
  assert (Hlen : List.length pset' = List.length pset)
    by (unfold pset'; now rewrite !update_length).
  apply nth_error_ext. intros k.
  destruct (Nat.eq_dec k j) as [-> | Hkj].
  - rewrite nth_error_update_same by (rewrite update_length; lia). congruence.
  - rewrite nth_error_update_other by assumption.
    destruct (Nat.eq_dec k i) as [-> | Hki].
    + rewrite nth_error_update_same by lia. congruence.
    + rewrite nth_error_update_other by assumption. now apply Hother.
Qed.

Lemma Less_value (pset : PathConfigSet) (i j : nat) (a b : PathConfig) :
  nth_error pset i = Some a -> nth_error pset j = Some b ->
  Less pset i j = Ok (Path a <? Path b)%string.
Proof.
  intros Ha Hb. unfold Less. now rewrite (index_Some _ _ _ Ha), (index_Some _ _ _ Hb).
Qed.

Lemma Less_true (pset : PathConfigSet) (i j : nat) :
  Less pset i j = Ok true ->
  exists a b, nth_error pset i = Some a /\ nth_error pset j = Some b
              /\ (Path a <? Path b)%string = true.
Proof.
  unfold Less, index.
  destruct (nth_error pset i) as [a|]; [| discriminate].
  destruct (nth_error pset j) as [b|]; [| discriminate].
  cbn [bind]. intros H. injection H as H. eauto.
Qed.

(** X12. On indices in range [Less] is a strict order that compares the
    paths byte-wise: no element is less than itself, two elements are
    never less than each other, and it is transitive.  A table is in
    ascending order exactly when [Less(j, i)] is false for every pair
    of indices [i < j]. *)
Theorem Less_strict_order (pset : PathConfigSet) :
  (forall i, i < Len pset -> Less pset i i = Ok false)
  /\ (forall i j, Less pset i j = Ok true -> Less pset j i = Ok false)
  /\ (forall i j k, Less pset i j = Ok true -> Less pset j k = Ok true ->
                    Less pset i k = Ok true)
  /\ (ascending pset = true <->
      forall i j, i < j -> j < Len pset -> Less pset j i = Ok false).
Proof.
  split; [| split; [| split]].
  - intros i Hi. destruct (index_lt pset i Hi) as [a [Ha _]].
    rewrite (Less_value _ _ _ _ _ Ha Ha). now rewrite ltb_irrefl.
  - intros i j H. destruct (Less_true _ _ _ H) as [a [b [Ha [Hb Hlt]]]].
    rewrite (Less_value _ _ _ _ _ Hb Ha). f_equal.
    rewrite ltb_negb_leb. apply negb_false_iff, leb_cases. now left.
  - intros i j k H1 H2.
    destruct (Less_true _ _ _ H1) as [a [b [Ha [Hb Hab]]]].
    destruct (Less_true _ _ _ H2) as [b' [c [Hb' [Hc Hbc]]]].
    assert (b' = b) by congruence. subst b'.
    rewrite (Less_value _ _ _ _ _ Ha Hc). f_equal. eapply ltb_trans; eassumption.
  - split.
    + intros Hasc i j Hij Hj.
      destruct (index_lt pset j Hj) as [b [Hb _]].
      destruct (index_lt pset i) as [a [Ha _]]; [unfold Len in Hj; lia |].
      rewrite (Less_value _ _ _ _ _ Hb Ha). f_equal.
      rewrite ltb_negb_leb. apply negb_false_iff.
      apply (ascending_nth pset i j a b); auto; lia.
    + induction pset as [|a [|b t] IH]; intros H; try reflexivity.
      change (ascending (a :: b :: t))
        with ((Path a <=? Path b)%string && ascending (b :: t)).
      apply andb_true_iff. split.
      * specialize (H 0 1). unfold Less in H. simpl in H.
        assert (Hf : Ok (Path b <? Path a)%string = Ok false)
          by (apply H; lia).
        injection Hf as Hf. rewrite ltb_negb_leb in Hf.
        now apply negb_false_iff in Hf.
      * apply IH. intros i j Hij Hj.
        specialize (H (S i) (S j)). unfold Less in *. simpl in H.
        apply H; [lia |]. unfold Len in *. simpl in *. lia.
Qed.

End Interface.

(** * Further properties: instances *)

Section Instances.

Local Open Scope list_scope.

Lemma ServeHTTP_unmatched_witness :
  ServeHTTP show_index show_vanity
            (example_handler ["/abc"; "/xyz"]%string "86400")
            (request "/def")
  = Ok ("public, max-age=86400"%string, HttpNotFound).
Proof.
  apply (ServeHTTP_unmatched show_index show_vanity
           (example_handler ["/abc"; "/xyz"]%string "86400") (request "/def")).
  intros e [<- | [<- | []]] [rest H]; discriminate H.
Defined.

Lemma ServeHTTP_host_header_witness :
  ServeHTTP show_index show_vanity
            (example_handler ["/abc"; "/xyz"]%string "86400")
            {| r_URL_Path := "/abc/x"; r_Host := "go.example.org" |}
  = ServeHTTP show_index show_vanity
              (example_handler ["/abc"; "/xyz"]%string "86400")
              {| r_URL_Path := "/abc/x"; r_Host := "evil.example.net" |}.
Proof.
  apply ServeHTTP_host_header.
  - reflexivity.
  - left. discriminate.
Defined.

Lemma ServeHTTP_prefix_served_witness :
  exists e' sub,
    In e' (paths (example_handler ["/a"; "/a/b"; "/a/b-x"]%string "86400"))
    /\ is_prefix (Path e') (r_URL_Path (request "/a/b/c"))
    /\ String.length (Path (route "/a")) <= String.length (Path e')
    /\ ServeHTTP show_index show_vanity
                 (example_handler ["/a"; "/a/b"; "/a/b-x"]%string "86400")
                 (request "/a/b/c")
       = Ok (cachectrl (example_handler ["/a"; "/a/b"; "/a/b-x"]%string "86400"),
             vanity show_vanity
                    (example_handler ["/a"; "/a/b"; "/a/b-x"]%string "86400")
                    e' sub (request "/a/b/c")).
Proof.
  apply (ServeHTTP_prefix_served show_index show_vanity
           (example_handler ["/a"; "/a/b"; "/a/b-x"]%string "86400")
           (request "/a/b/c") (route "/a")).
  - reflexivity.
  - simpl. auto.
  - discriminate.
  - exists "/b/c"%string. reflexivity.
Defined.

Lemma ServeHTTP_root_entry_witness :
  exists e,
    In e (paths (example_handler [""; "/abc"; "/xyz"]%string "86400"))
    /\ Path e = ""%string
    /\ ServeHTTP show_index show_vanity
                 (example_handler [""; "/abc"; "/xyz"]%string "86400")
                 (request "/")
       = Ok (cachectrl (example_handler [""; "/abc"; "/xyz"]%string "86400"),
             vanity show_vanity
                    (example_handler [""; "/abc"; "/xyz"]%string "86400")
                    e "" (request "/")).
Proof.
  apply (ServeHTTP_root_entry show_index show_vanity
           (example_handler [""; "/abc"; "/xyz"]%string "86400")
           (request "/") ""%string).
  - reflexivity.
  - exists (route ""). simpl. auto.
  - reflexivity.
  - intros e [<- | [<- | [<- | []]]]; [left | right | right]; reflexivity.
Defined.

Lemma ServeHTTP_root_not_catch_all_witness :
  ServeHTTP show_index show_vanity
            (example_handler [""; "/abc"; "/xyz"]%string "86400")
            (request "/def")
  = Ok ("public, max-age=86400"%string, HttpNotFound).
Proof.
  apply (ServeHTTP_root_not_catch_all show_index show_vanity
           (example_handler [""; "/abc"; "/xyz"]%string "86400")
           (request "/def") (route "/abc")).
  - reflexivity.
  - simpl. auto.
  - discriminate.
  - reflexivity.
  - intros e [<- | [<- | [<- | []]]] Hne [rest H];
      [now apply Hne | discriminate H | discriminate H].
Defined.

Lemma NewVanityHandler_sorted_canonical_witness :
  strictly_ascending (paths (example_handler [""; "/abc"; "/xyz"]%string "86400")) = true
  /\ Permutation
       (map Path (paths (example_handler [""; "/abc"; "/xyz"]%string "86400")))
       (map (fun kv => normalize (fst kv))
            (cfg_Paths (example_config ["/xyz"; "/"; "/abc/"]%string None)))
  /\ NewVanityHandler
       (parses_to (example_config ["/"; "/abc/"; "/xyz"]%string None)) ""%string
     = Ok (Some (example_handler [""; "/abc"; "/xyz"]%string "86400"), None)
  /\ (forall hd' err' q,
         NewVanityHandler
           (parses_to (example_config ["/"; "/abc/"; "/xyz"]%string None)) ""%string
         = Ok (Some hd', err') ->
         paths hd' = paths (example_handler [""; "/abc"; "/xyz"]%string "86400")
         /\ find (paths hd') q
            = find (paths (example_handler [""; "/abc"; "/xyz"]%string "86400")) q)
  /\ (forall t,
         Permutation (paths (example_handler [""; "/abc"; "/xyz"]%string "86400")) t ->
         ascending t = true ->
         t = paths (example_handler [""; "/abc"; "/xyz"]%string "86400")).
Proof.
  apply (NewVanityHandler_sorted_canonical
           (parses_to (example_config ["/xyz"; "/"; "/abc/"]%string None))
           (parses_to (example_config ["/"; "/abc/"; "/xyz"]%string None))
           ""%string ""%string
           (example_config ["/xyz"; "/"; "/abc/"]%string None)
           (example_config ["/"; "/abc/"; "/xyz"]%string None)
           (example_handler [""; "/abc"; "/xyz"]%string "86400") None).
  - reflexivity.
  - reflexivity.
  - reflexivity.
  - reflexivity.
  - simpl. apply (Permutation_cons_append [binding "/"; binding "/abc/"] (binding "/xyz")).
  - reflexivity.
  - reflexivity.
Defined.

Lemma find_def_no_match_witness :
  Permutation
    (map Path (paths (example_handler [""; "/abc"; "/xyz"]%string "86400")))
    [""; "/abc"; "/xyz"]%string
  /\ find (paths (example_handler [""; "/abc"; "/xyz"]%string "86400")) "/def"
     = Ok (None, ""%string)
  /\ forall i,
       find (paths (example_handler [""; "/abc"; "/xyz"]%string "86400")) "/def"
       <> Ok (Some i, "def"%string).
Proof.
  apply (find_def_no_match
           (parses_to (example_config ["/xyz"; "/"; "/abc"]%string None)) ""%string
           (example_config ["/xyz"; "/"; "/abc"]%string None)
           (example_handler [""; "/abc"; "/xyz"]%string "86400") None).
  - reflexivity.
  - simpl. apply (Permutation_cons_append ["/"; "/abc"]%string "/xyz"%string).
  - reflexivity.
Defined.

Lemma NewVanityHandler_table_witness :
  exists parsed,
    parses_to (example_config ["/xyz"; "/"; "/abc/"]%string None) ""%string
    = Some parsed
    /\ ascending (paths (example_handler [""; "/abc"; "/xyz"]%string "86400")) = true
    /\ List.length (paths (example_handler [""; "/abc"; "/xyz"]%string "86400"))
       = List.length (cfg_Paths parsed)
    /\ Permutation
         (map Path (paths (example_handler [""; "/abc"; "/xyz"]%string "86400")))
         (map (fun kv => normalize (fst kv)) (cfg_Paths parsed))
    /\ (strictly_ascending
          (paths (example_handler [""; "/abc"; "/xyz"]%string "86400")) = true
        <-> NoDup (map (fun kv => normalize (fst kv)) (cfg_Paths parsed))).
Proof.
  apply (NewVanityHandler_table
           (parses_to (example_config ["/xyz"; "/"; "/abc/"]%string None))
           ""%string
           (example_handler [""; "/abc"; "/xyz"]%string "86400") None).
  reflexivity.
Defined.

Lemma NewVanityHandler_entries_witness :
  exists parsed,
    parses_to (example_config ["/xyz"; "/"; "/abc/"]%string None) ""%string
    = Some parsed
    /\ host (example_handler [""; "/abc"; "/xyz"]%string "86400") = cfg_Host parsed
    /\ (forall pc,
           In pc (paths (example_handler [""; "/abc"; "/xyz"]%string "86400")) ->
           exists k e, In (k, e) (cfg_Paths parsed) /\ built_from k e pc)
    /\ (forall k e,
           In (k, e) (cfg_Paths parsed) ->
           exists pc,
             In pc (paths (example_handler [""; "/abc"; "/xyz"]%string "86400"))
             /\ built_from k e pc).
Proof.
  apply (NewVanityHandler_entries
           (parses_to (example_config ["/xyz"; "/"; "/abc/"]%string None))
           ""%string
           (example_handler [""; "/abc"; "/xyz"]%string "86400") None).
  reflexivity.
Defined.

Lemma NewVanityHandler_entry_error_witness :
  exists parsed bs1 e bs2,
    parses_to rejected_config ""%string = Some parsed
    /\ cfg_Paths parsed = bs1 ++ ("/bad/"%string, e) :: bs2
    /\ "https://example.org/r"%string = vp_Repo e
    /\ (states_unknown_vcs e \/ vcs_uninferable e)
    /\ Forall (fun kv => ~ states_unknown_vcs (snd kv)
                         /\ ~ vcs_uninferable (snd kv)) bs1
    /\ Error (InvalidVCSError "/bad/" "https://example.org/r")
       = ("configuration for " ++ "/bad/" ++ ": cannot infer VCS from "
            ++ vp_Repo e)%string.
Proof.
  apply (NewVanityHandler_entry_error (parses_to rejected_config) ""%string None).
  reflexivity.
Defined.

Lemma NewVanityHandler_serves_configured_witness :
  exists pc k' e',
    In pc (paths (example_handler [""; "/abc"; "/xyz"]%string "86400"))
    /\ Path pc = normalize "/abc/"
    /\ In (k', e') (cfg_Paths (example_config ["/xyz"; "/"; "/abc/"]%string None))
    /\ normalize k' = normalize "/abc/"
    /\ built_from k' e' pc
    /\ ServeHTTP show_index show_vanity
                 (example_handler [""; "/abc"; "/xyz"]%string "86400")
                 (request "/abc")
       = Ok (("public, max-age="
                ++ fmt_d (effective_age
                            (example_config ["/xyz"; "/"; "/abc/"]%string None)))%string,
             vanity show_vanity
                    (example_handler [""; "/abc"; "/xyz"]%string "86400")
                    pc "" (request "/abc")).
Proof.
  apply (NewVanityHandler_serves_configured
           (parses_to (example_config ["/xyz"; "/"; "/abc/"]%string None))
           show_index show_vanity ""%string
           (example_handler [""; "/abc"; "/xyz"]%string "86400") None
           (example_config ["/xyz"; "/"; "/abc/"]%string None)
           "/abc/"%string (snd (binding "/abc/")) (request "/abc")).
  - reflexivity.
  - reflexivity.
  - simpl. auto.
  - reflexivity.
Defined.

Lemma NewVanityHandler_index_witness :
  exists handlers,
    ServeHTTP show_index show_vanity
              (example_handler ["/abc"; "/xyz"]%string "86400") (request "/")
    = Ok (cachectrl (example_handler ["/abc"; "/xyz"]%string "86400"),
          render (show_index
                    {| i_Host := Host (example_handler ["/abc"; "/xyz"]%string "86400")
                                      (request "/");
                       i_Handlers := handlers |}))
    /\ strings_ascending handlers = true
    /\ Permutation handlers
         (map (fun kv => (Host (example_handler ["/abc"; "/xyz"]%string "86400")
                               (request "/") ++ normalize (fst kv))%string)
              (cfg_Paths (example_config ["/xyz"; "/abc/"]%string None))).
Proof.
  apply (NewVanityHandler_index
           (parses_to (example_config ["/xyz"; "/abc/"]%string None))
           show_index show_vanity ""%string
           (example_handler ["/abc"; "/xyz"]%string "86400") None
           (example_config ["/xyz"; "/abc/"]%string None) (request "/")).
  - reflexivity.
  - reflexivity.
  - intros k e [H | [H | []]]; injection H as <- <-; repeat split; discriminate.
  - reflexivity.
Defined.

End Instances.
